(** * metascraper: token readers for page text, meta tags and schema.org data

    A shallow embedding of the Go package [metascraper] (the TokenReader
    interface and the ReaderList, the MetaReader of meta.go, the SchemaReader,
    the PageReader and the Page of page.go, and Scrape) and the properties of
    its token readers.

    Go objects reached through pointers ([*Meta], [*ItemScope]) live in an
    explicit store: a pointer is an index into the store of the reader that
    allocated it, [&T{}] appends a zero value, and a field assignment through a
    pointer rewrites the cell.  [log.Fatalln] and Go run-time panics are
    results of the [outcome] type, threaded through the handlers by a small
    error monad. *)

From Stdlib Require Import Ascii String.
From stdpp Require Import base option list strings gmap.

Open Scope string_scope.
Open Scope list_scope.

(** ** Basic types *)

(** A Go [[]byte]. *)
Abbreviation bytes := (list ascii).

(** [string(b)] for a byte slice [b]. *)
Definition string_of_bytes (b : bytes) : string := string_of_list_ascii b.

(** A pointer into a store. *)
Abbreviation ptr := nat.

(** Go's [error] interface values met in this package. *)
Inductive error : Type :=
  | nil                      (* the nil error *)
  | io_EOF                   (* io.EOF *)
  | Err (msg : string).      (* any other error value *)

#[global] Instance error_eq_dec : EqDecision error.
Proof. solve_decision. Defined.

(** What running a piece of the program leads to. *)
Inductive outcome (A : Type) : Type :=
  | OK (a : A)               (* normal completion *)
  | Fatal (msg : string)     (* log.Fatalln: the message is logged, the process exits *)
  | Panic.                   (* run-time panic: slice bounds out of range *)
Arguments OK {A} a.
Arguments Fatal {A} msg.
Arguments Panic {A}.

#[global] Instance outcome_ret : MRet outcome := @OK.
#[global] Instance outcome_bind : MBind outcome := λ A B f m,
  match m with
  | OK a => f a
  | Fatal msg => Fatal msg
  | Panic => Panic
  end.

(** ** Slices used as stacks *)

(** [s[:len(s)-1]] on a non-empty slice. *)
Definition init {A : Type} (s : list A) : list A := take (length s - 1) s.

(** ** The tokenizer's events (golang.org/x/net/html, an external collaborator)

    [z.Next()] yields one of these until it yields [ErrorToken]; a stream is
    therefore a list of tokens together with the error [z.Err()] reports at
    the [ErrorToken].  A tag token carries what [z.TagName()] returns (name
    and has-attributes flag) and the attributes [z.TagAttr()] hands out. *)
Inductive Token : Type :=
  | TextToken (text : bytes)
  | StartTagToken (tn : string) (hasAttr : bool) (attr : list (string * string))
  | EndTagToken (tn : string)
  | SelfClosingTagToken (tn : string) (hasAttr : bool) (attr : list (string * string))
  | CommentToken (text : bytes)
  | DoctypeToken (text : bytes).

(** [AttrMap]: the loop calls [z.TagAttr()] first and tests [more] afterwards;
    on an exhausted cursor [TagAttr] returns [nil, nil, false]. *)
Fixpoint AttrMap_loop (z : list (string * string)) (attrs : gmap string string)
    : gmap string string :=
  match z with
  | [] => <["" := ""]> attrs
  | (k, v) :: z' =>
      match z' with
      | [] => <[k := v]> attrs
      | _ :: _ => AttrMap_loop z' (<[k := v]> attrs)
      end
  end.

Definition AttrMap (hasAttr : bool) (z : list (string * string)) : gmap string string :=
  if negb hasAttr then ∅ else AttrMap_loop z ∅.

(** [attrs[k]] on a Go map: the zero value when the key is absent. *)
Definition index (attrs : gmap string string) (k : string) : string :=
  default "" (attrs !! k).

(** ** The TokenReader interface and the ReaderList *)

(** The [TokenReader] interface, for a reader acting on state [S]. *)
Module TokenReader.
Record t (S : Type) : Type := mk {
  HandleStart : string → gmap string string → S → outcome S;
  HandleEnd : string → S → outcome S;
  HandleText : bytes → S → outcome S;
  Done : S → outcome S
}.
Arguments mk {S}.
Arguments HandleStart {S}.
Arguments HandleEnd {S}.
Arguments HandleText {S}.
Arguments Done {S}.
End TokenReader.

(** [for _, r := range t.Readers { ... }] *)
Fixpoint each {S : Type} (f : TokenReader.t S → S → outcome S)
    (Readers : list (TokenReader.t S)) (s : S) : outcome S :=
  match Readers with
  | [] => OK s
  | r :: rest => s' ← f r s; each f rest s'
  end.

(** [ReaderList] implements [TokenReader] over a slice of TokenReaders. *)
Definition ReaderList {S : Type} (Readers : list (TokenReader.t S)) : TokenReader.t S :=
  {| TokenReader.HandleStart tn attrs := each (λ r, TokenReader.HandleStart r tn attrs) Readers;
     TokenReader.HandleEnd tn := each (λ r, TokenReader.HandleEnd r tn) Readers;
     TokenReader.HandleText text := each (λ r, TokenReader.HandleText r text) Readers;
     TokenReader.Done := each TokenReader.Done Readers |}.

(** One turn of the loop of [Page.Read] for a token other than [ErrorToken]. *)
Definition feed {S : Type} (readers : TokenReader.t S) (tok : Token) (s : S) : outcome S :=
  match tok with
  | TextToken text => TokenReader.HandleText readers text s
  | StartTagToken tn hasAttr z => TokenReader.HandleStart readers tn (AttrMap hasAttr z) s
  | EndTagToken tn => TokenReader.HandleEnd readers tn s
  | SelfClosingTagToken tn hasAttr z =>
      s' ← TokenReader.HandleStart readers tn (AttrMap hasAttr z) s;
      TokenReader.HandleEnd readers tn s'
  | CommentToken _ | DoctypeToken _ => OK s
  end.

(** The loop of [Page.Read] up to, not including, the [ErrorToken]. *)
Fixpoint run {S : Type} (readers : TokenReader.t S) (toks : list Token) (s : S) : outcome S :=
  match toks with
  | [] => OK s
  | tok :: rest => s' ← feed readers tok s; run readers rest s'
  end.

(** ** meta.go: Meta and the MetaReader *)

Module Meta.
Record t : Type := mk {
  Property : string;
  Content : string;
  Name : string;
  Extra : list ptr
}.
(** [Meta{}] *)
Definition zero : t := mk "" "" "" [].
#[global] Instance inhabited : Inhabited t := populate zero.

Definition set_Property (v : string) (m : t) : t := mk v (Content m) (Name m) (Extra m).
Definition set_Content (v : string) (m : t) : t := mk (Property m) v (Name m) (Extra m).
Definition set_Name (v : string) (m : t) : t := mk (Property m) (Content m) v (Extra m).
Definition set_Extra (v : list ptr) (m : t) : t := mk (Property m) (Content m) (Name m) v.
End Meta.

Module MetaReader.
Record t : Type := mk {
  heap : list Meta.t;      (* the Meta objects allocated by this reader *)
  items : list ptr;
  inside : bool;
  inHead : bool
}.
(** [&MetaReader{}] *)
Definition new : t := mk [] [] false false.

Definition set_heap (v : list Meta.t) (r : t) : t := mk v (items r) (inside r) (inHead r).
Definition set_items (v : list ptr) (r : t) : t := mk (heap r) v (inside r) (inHead r).
Definition set_inside (v : bool) (r : t) : t := mk (heap r) (items r) v (inHead r).
Definition set_inHead (v : bool) (r : t) : t := mk (heap r) (items r) (inside r) v.

(** Reading through a pointer, and updating the object it points to.  The
    pointers a reader holds always point into its store; for any other index
    [load] gives the zero value and [store] changes nothing. *)
Definition load (r : t) (p : ptr) : Meta.t := heap r !!! p.
Definition store (p : ptr) (f : Meta.t → Meta.t) (r : t) : t :=
  set_heap (alter f p (heap r)) r.

(** [current]: [Some p] stands for [(p, true)]; [None] for
    [(&Meta{}, false)], whose fresh object nobody keeps. *)
Definition current (r : t) : option ptr := last (items r).

(** The object a result of [current] points to. *)
Definition deref (r : t) (cur : option ptr) : Meta.t :=
  match cur with
  | Some p => load r p
  | None => Meta.zero
  end.

Definition next (r : t) : ptr * t :=
  let m := length (heap r) in
  (m, set_items (items r ++ [m]) (set_heap (heap r ++ [Meta.zero]) r)).

Definition pop (r : t) : outcome (ptr * t) :=
  match last (items r) with
  | None => Panic
  | Some c => OK (c, set_items (init (items r)) r)
  end.

Definition makeCurrentExtra (r : t) : outcome t :=
  '(e, r) ← pop r;
  match current r with
  | None => Fatal "No prior meta tag to associate the current tag with."
  | Some cur => OK (store cur (λ c, Meta.set_Extra (Meta.Extra c ++ [e]) c) r)
  end.

Definition HandleStart (tn : string) (attrs : gmap string string) (r : t) : outcome t :=
  if decide (tn = "head") then OK (set_inHead true r)
  else if decide (tn = "meta") then
    if negb (inHead r) then OK r
    else
      let r := set_inside true r in
      let cur := current r in
      let '(m, r) := next r in
      let r := store m (Meta.set_Property (index attrs "property")) r in
      let r := store m (Meta.set_Content (index attrs "content")) r in
      let r := store m (Meta.set_Name (index attrs "name")) r in
      if bool_decide (is_Some cur)
         && String.prefix (Meta.Property (deref r cur) +:+ ":") (Meta.Property (load r m))
      then makeCurrentExtra r
      else OK r
  else OK r.

Definition HandleEnd (tn : string) (r : t) : t :=
  if decide (tn = "head") then set_inHead false r
  else if decide (tn = "meta") then set_inside false r
  else r.

Definition HandleText (text : bytes) (r : t) : t :=
  if inside r && inHead r then
    match current r with
    | Some cur =>
        if decide (Meta.Content (load r cur) = "")
        then store cur (λ c, Meta.set_Content (Meta.Content c +:+ string_of_bytes text) c) r
        else r
    | None => r
    end
  else r.

Definition Done (r : t) : t := r.

Definition reader : TokenReader.t t :=
  {| TokenReader.HandleStart := HandleStart;
     TokenReader.HandleEnd tn r := OK (HandleEnd tn r);
     TokenReader.HandleText text r := OK (HandleText text r);
     TokenReader.Done r := OK (Done r) |}.
End MetaReader.

(** ** The schema.org data and the SchemaReader *)

Module ItemProp.
Record t : Type := mk {
  TagName : string;
  ItemProp : string;
  Content : string;
  HREF : string;
  DateTime : string
}.
Definition set_Content (v : string) (p : t) : t :=
  mk (TagName p) (ItemProp p) v (HREF p) (DateTime p).
End ItemProp.

Module ItemScope.
(** [Props] holds the ItemProp objects themselves: a [*ItemProp] is only
    ever reachable through the one [Props] slice it was appended to.
    [Children] holds pointers: a scope is reachable from its parent and
    from the reader's stack at once. *)
Record t : Type := mk {
  TagName : string;
  ItemType : string;
  ItemProp : string;
  Props : list ItemProp.t;
  Children : list ptr
}.
(** [ItemScope{}] *)
Definition zero : t := mk "" "" "" [] [].
#[global] Instance inhabited : Inhabited t := populate zero.

Definition set_TagName (v : string) (s : t) : t :=
  mk v (ItemType s) (ItemProp s) (Props s) (Children s).
Definition set_ItemType (v : string) (s : t) : t :=
  mk (TagName s) v (ItemProp s) (Props s) (Children s).
Definition set_ItemProp (v : string) (s : t) : t :=
  mk (TagName s) (ItemType s) v (Props s) (Children s).
Definition set_Props (v : list ItemProp.t) (s : t) : t :=
  mk (TagName s) (ItemType s) (ItemProp s) v (Children s).
Definition set_Children (v : list ptr) (s : t) : t :=
  mk (TagName s) (ItemType s) (ItemProp s) (Props s) v.
End ItemScope.

Module SchemaReader.
Record t : Type := mk {
  heap : list ItemScope.t; (* the ItemScope objects allocated by this reader *)
  items : list ptr;
  stack : list ptr;
  breadcrumbs : list bool;
  insideProp : bool;
  inHead : bool
}.
(** [&SchemaReader{}] *)
Definition new : t := mk [] [] [] [] false false.

Definition set_heap (v : list ItemScope.t) (r : t) : t :=
  mk v (items r) (stack r) (breadcrumbs r) (insideProp r) (inHead r).
Definition set_items (v : list ptr) (r : t) : t :=
  mk (heap r) v (stack r) (breadcrumbs r) (insideProp r) (inHead r).
Definition set_stack (v : list ptr) (r : t) : t :=
  mk (heap r) (items r) v (breadcrumbs r) (insideProp r) (inHead r).
Definition set_breadcrumbs (v : list bool) (r : t) : t :=
  mk (heap r) (items r) (stack r) v (insideProp r) (inHead r).
Definition set_insideProp (v : bool) (r : t) : t :=
  mk (heap r) (items r) (stack r) (breadcrumbs r) v (inHead r).
Definition set_inHead (v : bool) (r : t) : t :=
  mk (heap r) (items r) (stack r) (breadcrumbs r) (insideProp r) v.

(** Reading through a pointer, and updating the object it points to, as
    for the MetaReader. *)
Definition load (r : t) (p : ptr) : ItemScope.t := heap r !!! p.
Definition store (p : ptr) (f : ItemScope.t → ItemScope.t) (r : t) : t :=
  set_heap (alter f p (heap r)) r.

(** [current]: [Some p] stands for [(p, true)], [None] for
    [(&ItemScope{}, false)]. *)
Definition current (r : t) : option ptr := last (stack r).

Definition next (r : t) : ptr * t :=
  let s := length (heap r) in
  let r := set_heap (heap r ++ [ItemScope.zero]) r in
  let r :=
    match last (stack r) with
    | Some cur =>
        store cur (λ c, ItemScope.set_Children (ItemScope.Children c ++ [s]) c) r
    | None => set_items (items r ++ [s]) r
    end in
  (s, set_stack (stack r ++ [s]) r).

(** On an empty stack [r.stack[:len(r.stack)-1]] is out of range. *)
Definition pop (r : t) : outcome (ptr * t) :=
  match current r with
  | None => Panic
  | Some s => OK (s, set_stack (init (stack r)) r)
  end.

Definition HandleStart (tn : string) (attrs : gmap string string) (r : t) : t :=
  let r := if decide (tn = "head") then set_inHead true r else r in
  if inHead r || bool_decide (size attrs = 0) then r
  else
    let cur := current r in
    let '(shouldPopOnEnd, r) :=
      if bool_decide (is_Some (attrs !! "itemscope")) then
        let '(s, r) := next r in
        let r := store s (ItemScope.set_ItemProp (index attrs "itemprop")) r in
        let r := store s (ItemScope.set_TagName tn) r in
        let r := store s (ItemScope.set_ItemType (index attrs "itemtype")) r in
        (true, r)
      else
        match cur, attrs !! "itemprop" with
        | Some s, Some itemprop =>
            let prop := ItemProp.mk tn itemprop (index attrs "content")
                          (index attrs "href") (index attrs "datetime") in
            let r := store s (λ c, ItemScope.set_Props (ItemScope.Props c ++ [prop]) c) r in
            (false, set_insideProp true r)
        | _, _ => (false, r)
        end in
    set_breadcrumbs (breadcrumbs r ++ [shouldPopOnEnd]) r.

Definition HandleEnd (tn : string) (r : t) : outcome t :=
  if inHead r then
    OK (if decide (tn = "head") then set_inHead false r else r)
  else
    let r := set_insideProp false r in
    match last (breadcrumbs r) with
    | Some shouldPop =>
        let r := set_breadcrumbs (init (breadcrumbs r)) r in
        if shouldPop then '(_, r) ← pop r; OK r else OK r
    | None => OK r
    end.

Definition HandleText (text : bytes) (r : t) : outcome t :=
  if insideProp r then
    match current r with
    | Some s =>
        let n := length (ItemScope.Props (load r s)) in
        if decide (n = 0) then Fatal "No prop to set content from text node"
        else OK (store s (λ c, ItemScope.set_Props
                   (alter (ItemProp.set_Content (string_of_bytes text)) (n - 1)
                      (ItemScope.Props c)) c) r)
    | None => Fatal "No prop to set content from text node"
    end
  else OK r.

Definition Done (r : t) : t := r.

Definition reader : TokenReader.t t :=
  {| TokenReader.HandleStart tn attrs r := OK (HandleStart tn attrs r);
     TokenReader.HandleEnd := HandleEnd;
     TokenReader.HandleText := HandleText;
     TokenReader.Done r := OK (Done r) |}.
End SchemaReader.

(** ** page.go: text normalisation *)

(** The byte with the given code. *)
Definition byte_of (n : nat) : ascii := ascii_of_nat n.

(** The character class of [lineFeedReplacer], [[\n\r]]. *)
Definition is_lineFeed (a : ascii) : bool :=
  bool_decide (nat_of_ascii a ∈ [10; 13]).

(** The character class of [whitespaceReplacer]: in Go's regexp syntax [\s]
    is [[\t\n\f\r ]]. *)
Definition is_whitespace (a : ascii) : bool :=
  bool_decide (nat_of_ascii a ∈ [9; 10; 12; 13; 32]).

(** [regexp.MustCompile(`[c]+`).ReplaceAll(src, repl)] for a class [c] of
    single bytes and a replacement without [$]: matches are leftmost and
    greedy, so every maximal run of bytes of the class becomes one copy of
    the replacement and all other bytes are copied.  [in_match] tells whether
    the preceding byte belonged to a run already replaced. *)
Fixpoint ReplaceAll_from (class : ascii → bool) (repl : bytes) (in_match : bool)
    (src : bytes) : bytes :=
  match src with
  | [] => []
  | a :: rest =>
      if class a then
        if in_match then ReplaceAll_from class repl true rest
        else repl ++ ReplaceAll_from class repl true rest
      else a :: ReplaceAll_from class repl false rest
  end.

Definition ReplaceAll (class : ascii → bool) (src repl : bytes) : bytes :=
  ReplaceAll_from class repl false src.

(** The UTF-8 encodings of the runes for which [unicode.IsSpace] holds:
    U+0009..U+000D, U+0020, U+0085, U+00A0, U+1680, U+2000..U+200A, U+2028,
    U+2029, U+202F, U+205F, U+3000. *)
Definition space_runes : list bytes :=
  map (map byte_of)
    [ [9]; [10]; [11]; [12]; [13]; [32];
      [194; 133]; [194; 160];
      [225; 154; 128];
      [226; 128; 128]; [226; 128; 129]; [226; 128; 130]; [226; 128; 131];
      [226; 128; 132]; [226; 128; 133]; [226; 128; 134]; [226; 128; 135];
      [226; 128; 136]; [226; 128; 137]; [226; 128; 138];
      [226; 128; 168]; [226; 128; 169]; [226; 128; 175];
      [226; 129; 159];
      [227; 128; 128] ].

(** [strip e s]: [s] without its prefix [e], if [s] starts with [e]. *)
Fixpoint strip (e s : bytes) : option bytes :=
  match e, s with
  | [], _ => Some s
  | x :: e', y :: s' => if decide (x = y) then strip e' s' else None
  | _ :: _, [] => None
  end.

(** [s] without the first of the byte sequences [runes] it starts with. *)
Fixpoint strip_any (runes : list bytes) (s : bytes) : option bytes :=
  match runes with
  | [] => None
  | e :: runes' =>
      match strip e s with
      | Some s' => Some s'
      | None => strip_any runes' s
      end
  end.

(** Dropping leading runes of [runes], at most [n] of them. *)
Fixpoint trim_left (runes : list bytes) (n : nat) (s : bytes) : bytes :=
  match n with
  | 0 => s
  | S n' =>
      match strip_any runes s with
      | Some s' => trim_left runes n' s'
      | None => s
      end
  end.

(** [strings.TrimLeftFunc(s, unicode.IsSpace)]: decoding the first rune of
    [s] gives a white space rune exactly when [s] starts with its encoding. *)
Definition TrimLeft (s : bytes) : bytes := trim_left space_runes (length s) s.

(** [strings.TrimRightFunc(s, unicode.IsSpace)]: decoding the last rune of
    [s] gives a white space rune exactly when [s] ends with its encoding. *)
Definition TrimRight (s : bytes) : bytes :=
  reverse (trim_left (map reverse space_runes) (length s) (reverse s)).

(** [strings.TrimSpace] *)
Definition TrimSpace (s : string) : string :=
  string_of_list_ascii (TrimRight (TrimLeft (list_ascii_of_string s))).

(** The three steps of [PageReader.Done], from the collected bytes to the
    final [Text]. *)
Definition normalize (text : bytes) : string :=
  let text := ReplaceAll is_lineFeed text [byte_of 10] in
  let text := ReplaceAll is_whitespace text [byte_of 32] in
  TrimSpace (string_of_bytes text).

(** ** page.go: the PageReader, the Page and its Read loop *)

Module PageReader.
Record t : Type := mk {
  inTitle : bool;
  inBody : bool;
  inScript : bool;
  text : bytes
}.
(** [&PageReader{page: p}]; the [page] field is the enclosing page, which
    the handlers below take and give back. *)
Definition new : t := mk false false false [].

Definition set_inTitle (v : bool) (r : t) : t := mk v (inBody r) (inScript r) (text r).
Definition set_inBody (v : bool) (r : t) : t := mk (inTitle r) v (inScript r) (text r).
Definition set_inScript (v : bool) (r : t) : t := mk (inTitle r) (inBody r) v (text r).
Definition set_text (v : bytes) (r : t) : t := mk (inTitle r) (inBody r) (inScript r) v.

Definition HandleStart (tn : string) (r : t) : t :=
  if decide (tn = "title") then set_inTitle true r
  else if decide (tn = "body") then set_inBody true r
  else if decide (tn = "script") then set_inScript true r
  else r.

Definition HandleEnd (tn : string) (r : t) : t :=
  if decide (tn = "title") then set_inTitle false r
  else if decide (tn = "body") then set_inBody false r
  else if decide (tn = "script") then set_inScript false r
  else r.

Section page.
(** The page [r.page] points to, with its two fields the reader writes. *)
Context {P : Type} (set_Title set_Text : string → P → P).

Definition HandleText (text : bytes) (r : t) (page : P) : t * P :=
  if inTitle r then (r, set_Title (string_of_bytes text) page)
  else if inBody r && negb (inScript r)
  then (set_text (PageReader.text r ++ text) r, page)
  else (r, page).

Definition Done (r : t) (page : P) : t * P :=
  let r := set_text (ReplaceAll is_lineFeed (text r) [byte_of 10]) r in
  let r := set_text (ReplaceAll is_whitespace (text r) [byte_of 32]) r in
  (r, set_Text (TrimSpace (string_of_bytes (text r))) page).
End page.
End PageReader.

Module Page.
Record t : Type := mk {
  URL : string;
  HTML : string;
  Text : string;
  Title : string;
  MetaReader : MetaReader.t;
  SchemaReader : SchemaReader.t;
  PageReader : PageReader.t
}.

Definition set_HTML (v : string) (p : t) : t :=
  mk (URL p) v (Text p) (Title p) (MetaReader p) (SchemaReader p) (PageReader p).
Definition set_Text (v : string) (p : t) : t :=
  mk (URL p) (HTML p) v (Title p) (MetaReader p) (SchemaReader p) (PageReader p).
Definition set_Title (v : string) (p : t) : t :=
  mk (URL p) (HTML p) (Text p) v (MetaReader p) (SchemaReader p) (PageReader p).
Definition set_MetaReader (v : MetaReader.t) (p : t) : t :=
  mk (URL p) (HTML p) (Text p) (Title p) v (SchemaReader p) (PageReader p).
Definition set_SchemaReader (v : SchemaReader.t) (p : t) : t :=
  mk (URL p) (HTML p) (Text p) (Title p) (MetaReader p) v (PageReader p).
Definition set_PageReader (v : PageReader.t) (p : t) : t :=
  mk (URL p) (HTML p) (Text p) (Title p) (MetaReader p) (SchemaReader p) v.

(** [p.MetaReader] and [p.SchemaReader] as TokenReaders: each works on its
    own object inside the page. *)
Definition field {S : Type} (get : t → S) (set : S → t → t) (rd : TokenReader.t S)
    : TokenReader.t t :=
  {| TokenReader.HandleStart tn attrs p :=
       s ← TokenReader.HandleStart rd tn attrs (get p); OK (set s p);
     TokenReader.HandleEnd tn p :=
       s ← TokenReader.HandleEnd rd tn (get p); OK (set s p);
     TokenReader.HandleText text p :=
       s ← TokenReader.HandleText rd text (get p); OK (set s p);
     TokenReader.Done p :=
       s ← TokenReader.Done rd (get p); OK (set s p) |}.

(** [p.PageReader] as a TokenReader: it also writes [p.Title] and [p.Text]. *)
Definition pageReader : TokenReader.t t :=
  {| TokenReader.HandleStart tn attrs p :=
       OK (set_PageReader (PageReader.HandleStart tn (PageReader p)) p);
     TokenReader.HandleEnd tn p :=
       OK (set_PageReader (PageReader.HandleEnd tn (PageReader p)) p);
     TokenReader.HandleText text p :=
       let '(r, p) := PageReader.HandleText set_Title text (PageReader p) p in
       OK (set_PageReader r p);
     TokenReader.Done p :=
       let '(r, p) := PageReader.Done set_Text (PageReader p) p in
       OK (set_PageReader r p) |}.

Definition Readers : TokenReader.t t :=
  ReaderList
    [ pageReader;
      field MetaReader set_MetaReader MetaReader.reader;
      field SchemaReader set_SchemaReader SchemaReader.reader ].

Definition MetaData (p : t) : list ptr := MetaReader.items (MetaReader p).
Definition SchemaData (p : t) : list ptr := SchemaReader.items (SchemaReader p).

(** The loop of [Read] over the tokens [z.Next()] yields; the list is
    exhausted when [z.Next()] yields [ErrorToken], with [z.Err() = zerr]. *)
Fixpoint Read_loop (readers : TokenReader.t t) (toks : list Token) (zerr : error)
    (p : t) : outcome (t * error) :=
  match toks with
  | [] => p' ← TokenReader.Done readers p; OK (p', zerr)
  | tok :: rest => p' ← feed readers tok p; Read_loop readers rest zerr p'
  end.

(** [tokenizer text] is the run of [html.NewTokenizer(bytes.NewReader(text))]. *)
Definition Read (tokenizer : bytes → list Token * error) (text : bytes) (p : t)
    : outcome (t * error) :=
  let '(toks, zerr) := tokenizer text in
  Read_loop Readers toks zerr p.
End Page.

(** ** Scrape *)

Section scrape.
(** The collaborators: [http.Get], [ioutil.ReadAll] on the response body,
    and the HTML tokenizer. *)
Context {Response : Type}.
Variable http_Get : string → Response * error.
Variable ioutil_ReadAll : Response → bytes * error.
Variable tokenizer : bytes → list Token * error.

Definition Scrape (url : string) : outcome (Page.t * error) :=
  let p := Page.mk url "" "" "" MetaReader.new SchemaReader.new PageReader.new in
  let '(resp, err) := http_Get url in
  if decide (err ≠ nil) then OK (p, err)
  else
    let '(htmlBytes, err) := ioutil_ReadAll resp in
    if decide (err ≠ nil) then OK (p, err)
    else
      let p := Page.set_HTML (string_of_bytes htmlBytes) p in
      '(p, err) ← Page.Read tokenizer htmlBytes p;
      if decide (err ≠ io_EOF) then OK (p, err) else OK (p, nil).
End scrape.

(** The earlier version of [Scrape] that the sources keep beside it.  It
    reads the body with [resp.Body.Read(htmlBytes)] where [htmlBytes] is
    [[]byte{}]: a [Read] into a slice of length 0 stores nothing, so
    [htmlBytes] is still empty afterwards, whatever the response holds. *)
Module Earlier.
Section scrape.
Context {Response : Type}.
Variable http_Get : string → Response * error.
(** [resp.Body.Read(p)]: the number of bytes read into [p], and the error. *)
Variable Body_Read : Response → bytes → nat * error.
Variable tokenizer : bytes → list Token * error.

Definition Scrape (url : string) : outcome (Page.t * error) :=
  let p := Page.mk url "" "" "" MetaReader.new SchemaReader.new PageReader.new in
  let '(resp, err) := http_Get url in
  if decide (err ≠ nil) then OK (p, err)
  else
    let htmlBytes : bytes := [] in
    let '(_, err) := Body_Read resp htmlBytes in
    if decide (err ≠ nil) then OK (p, err)
    else
      let p := Page.set_HTML (string_of_bytes htmlBytes) p in
      '(p, err) ← Page.Read tokenizer htmlBytes p;
      if decide (err ≠ io_EOF) then OK (p, err) else OK (p, nil).
End scrape.
End Earlier.

(** * Properties *)

(** ** Specification vocabulary *)

(** The Meta a [meta] start tag with the attributes [attrs] gives rise to. *)
Definition meta_of (attrs : gmap string string) : Meta.t :=
  Meta.mk (index attrs "property") (index attrs "content") (index attrs "name") [].

(** Nesting is one level deep: the top-level Metas are allocated objects, and
    the entries of their [Extra] are allocated objects with no [Extra] of
    their own. *)
Definition one_level (r : MetaReader.t) : Prop :=
  ∀ p, p ∈ MetaReader.items r →
    p < length (MetaReader.heap r)
    ∧ ∀ q, q ∈ Meta.Extra (MetaReader.load r p) →
        q < length (MetaReader.heap r)
        ∧ Meta.Extra (MetaReader.load r q) = [].

(** The invariant of the store of a MetaReader: top-level pointers are
    allocated, and whatever sits in an [Extra] is allocated, is not top-level
    and has no [Extra]. *)
Record meta_inv (r : MetaReader.t) : Prop := {
  meta_items_valid :
    ∀ p, p ∈ MetaReader.items r → p < length (MetaReader.heap r);
  meta_extra_flat :
    ∀ p q, q ∈ Meta.Extra (MetaReader.load r p) →
      (q ∉ MetaReader.items r) ∧ (q < length (MetaReader.heap r))
      ∧ Meta.Extra (MetaReader.load r q) = []
}.

(** A well-nested token stream: every start tag is closed by an end tag of
    the same name, and elements nest. *)
Inductive balanced : list Token → Prop :=
  | balanced_nil : balanced []
  | balanced_text text l : balanced l → balanced (TextToken text :: l)
  | balanced_comment text l : balanced l → balanced (CommentToken text :: l)
  | balanced_doctype text l : balanced l → balanced (DoctypeToken text :: l)
  | balanced_self tn hasAttr z l :
      balanced l → balanced (SelfClosingTagToken tn hasAttr z :: l)
  | balanced_elem tn hasAttr z l1 l2 :
      balanced l1 → balanced l2 →
      balanced (StartTagToken tn hasAttr z :: l1 ++ EndTagToken tn :: l2).

(** The number of markers in [breadcrumbs] that announce a scope to pop. *)
Definition scopes_marked (breadcrumbs : list bool) : nat :=
  length (filter (λ b, b = true) breadcrumbs).

(** The two stacks of a SchemaReader agree: one open scope per [true] marker. *)
Definition stacks_agree (r : SchemaReader.t) : Prop :=
  length (SchemaReader.stack r) = scopes_marked (SchemaReader.breadcrumbs r).

(** The scopes on the stack of a SchemaReader are objects of its store. *)
Definition stack_allocated (r : SchemaReader.t) : Prop :=
  ∀ s, s ∈ SchemaReader.stack r → s < length (SchemaReader.heap r).

(** What a well-nested piece of the stream does to the markers: inside the
    head nothing; otherwise it ends outside the head and leaves at most the
    markers it found. *)
Definition settles (r r' : SchemaReader.t) : Prop :=
  (SchemaReader.inHead r = true ∧ SchemaReader.inHead r' = true
   ∧ SchemaReader.breadcrumbs r' = SchemaReader.breadcrumbs r)
  ∨ (SchemaReader.inHead r' = false
     ∧ SchemaReader.breadcrumbs r' `prefix_of` SchemaReader.breadcrumbs r).

(** [[]byte(s)] for a string [s]. *)
Definition bytes_of (s : string) : bytes := list_ascii_of_string s.

(** A start tag as the tokenizer reports it: the has-attributes flag is set
    exactly when there are attributes. *)
Definition start_tag (tn : string) (attr : list (string * string)) : Token :=
  StartTagToken tn (bool_decide (attr ≠ [])) attr.
Definition self_closing_tag (tn : string) (attr : list (string * string)) : Token :=
  SelfClosingTagToken tn (bool_decide (attr ≠ [])) attr.

(** Sample documents, as token streams.

    [<div itemscope>], never closed. *)
Definition unclosed_scope : list Token :=
  [ start_tag "div" [("itemscope", "")] ].

(** [<div itemscope itemtype="Person"><a href="alice.html" itemprop="url">Alice Jones</a></div>],
    from the test page of the repository. *)
Definition person_scope : list Token :=
  [ start_tag "div" [("itemscope", ""); ("itemtype", "Person")];
    start_tag "a" [("href", "alice.html"); ("itemprop", "url")];
    TextToken (bytes_of "Alice Jones");
    EndTagToken "a";
    EndTagToken "div" ].

(** [<div itemscope itemtype="Offer"><p>intro</p><span itemprop="name">Blend-O-Matic</span></div>]:
    an element without attributes inside a scope. *)
Definition plain_element_in_scope : list Token :=
  [ start_tag "div" [("itemscope", ""); ("itemtype", "Offer")];
    start_tag "p" [];
    TextToken (bytes_of "intro");
    EndTagToken "p";
    start_tag "span" [("itemprop", "name")];
    TextToken (bytes_of "Blend-O-Matic");
    EndTagToken "span";
    EndTagToken "div" ].

(** [<div itemscope><span itemprop="author"><span itemscope itemtype="Person">Alice</span></span></div>]:
    a scope opened inside a property. *)
Definition scope_in_property : list Token :=
  [ start_tag "div" [("itemscope", "")];
    start_tag "span" [("itemprop", "author")];
    start_tag "span" [("itemscope", ""); ("itemtype", "Person")];
    TextToken (bytes_of "Alice");
    EndTagToken "span";
    EndTagToken "span";
    EndTagToken "div" ].

(** [<head><meta property="og:image"/><meta property="og:image:alt">A rock</meta></head>]:
    a folded meta tag whose content is given as text. *)
Definition folded_meta_with_text : list Token :=
  [ start_tag "head" [];
    self_closing_tag "meta" [("property", "og:image")];
    start_tag "meta" [("property", "og:image:alt")];
    TextToken (bytes_of "A rock");
    EndTagToken "meta";
    EndTagToken "head" ].

(** The same with a [content] attribute on the first tag:
    [<head><meta property="og:image" content="rock.jpg"/><meta property="og:image:alt">A rock</meta></head>]. *)
Definition folded_meta_with_text' : list Token :=
  [ start_tag "head" [];
    self_closing_tag "meta" [("property", "og:image"); ("content", "rock.jpg")];
    start_tag "meta" [("property", "og:image:alt")];
    TextToken (bytes_of "A rock");
    EndTagToken "meta";
    EndTagToken "head" ].

(** A text is flat when its white space (in the sense of [\s]) consists of
    single spaces, none next to another; [after_space] tells whether the
    byte before the text is a space. *)
Fixpoint flat_from (after_space : bool) (s : bytes) : bool :=
  match s with
  | [] => true
  | a :: rest =>
      if is_whitespace a
      then bool_decide (a = byte_of 32) && negb after_space && flat_from true rest
      else flat_from false rest
  end.

(** What [PageReader.Done] computes before the final conversion to a string. *)
Definition normalize_bytes (text : bytes) : bytes :=
  TrimRight (TrimLeft (ReplaceAll is_whitespace
                         (ReplaceAll is_lineFeed text [byte_of 10]) [byte_of 32])).

(** The page [Scrape] hands to [Read]. *)
Definition fresh_page (url : string) (htmlBytes : bytes) : Page.t :=
  Page.set_HTML (string_of_bytes htmlBytes)
    (Page.mk url "" "" "" MetaReader.new SchemaReader.new PageReader.new).

(** The page after [Done] has run on all three readers: only the
    PageReader does anything, to its own bytes and to [Text]. *)
Definition finalized (p : Page.t) : Page.t :=
  Page.mk (Page.URL p) (Page.HTML p)
    (normalize (PageReader.text (Page.PageReader p)))
    (Page.Title p) (Page.MetaReader p) (Page.SchemaReader p)
    (PageReader.set_text
       (ReplaceAll is_whitespace
          (ReplaceAll is_lineFeed (PageReader.text (Page.PageReader p)) [byte_of 10])
          [byte_of 32])
       (Page.PageReader p)).

(** Sample collaborators: a fetch that succeeds with
    [<title>TestPage</title>], a tokenizer that consumes it to the end, and
    one that fails after the title text. *)
Definition sample_html : bytes := bytes_of "<title>TestPage</title>".
Definition sample_Get (url : string) : unit * error := (tt, nil).
Definition sample_ReadAll (resp : unit) : bytes * error := (sample_html, nil).
Definition sample_tokenizer (text : bytes) : list Token * error :=
  ([start_tag "title" []; TextToken (bytes_of "TestPage"); EndTagToken "title"], io_EOF).
Definition failing_tokenizer (text : bytes) : list Token * error :=
  ([start_tag "title" []; TextToken (bytes_of "TestPage")], Err "unexpected error").

(** The page the failing tokenizer leaves behind at its error. *)
Definition page_at_failure : Page.t :=
  Page.mk "http://example.com" "<title>TestPage</title>" "" "TestPage"
    MetaReader.new SchemaReader.new (PageReader.mk true false false []).

(** A line break followed by [n] spaces. *)
Definition indent (n : nat) : bytes := byte_of 10 :: replicate n (byte_of 32).

(** The tokens of [testPage], the document of the test of the package. *)
Definition testPage : list Token :=
  [ TextToken (indent 4);
    start_tag "html" [];
    TextToken (indent 8);
    start_tag "head" [];
    TextToken (indent 12);
    start_tag "title" [];
    TextToken (bytes_of "TestPage");
    EndTagToken "title";
    TextToken (indent 12);
    self_closing_tag "meta" [("property", "og:title"); ("content", "The Rock")];
    TextToken (indent 12);
    self_closing_tag "meta" [("property", "og:type"); ("content", "video.movie")];
    TextToken (indent 12);
    self_closing_tag "meta" [("property", "og:url"); ("content", "http://www.imdb.com/title/tt0117500/")];
    TextToken (indent 12);
    self_closing_tag "meta" [("property", "og:image"); ("content", "http://example.com/rock.jpg")];
    TextToken (indent 12);
    self_closing_tag "meta" [("property", "og:image:width"); ("content", "300")];
    TextToken (indent 12);
    self_closing_tag "meta" [("property", "og:image:height"); ("content", "300")];
    TextToken (indent 12);
    self_closing_tag "meta" [("property", "og:image"); ("content", "http://example.com/rock2.jpg")];
    TextToken (indent 12);
    self_closing_tag "meta" [("property", "og:image"); ("content", "http://example.com/rock3.jpg")];
    TextToken (indent 12);
    self_closing_tag "meta" [("property", "og:image:height"); ("content", "1000")];
    TextToken (indent 12);
    self_closing_tag "meta" [("name", "keywords"); ("content", "a,b,c")];
    TextToken (indent 12);
    start_tag "meta" [("name", "unusual")];
    TextToken (bytes_of "special");
    EndTagToken "meta";
    TextToken (indent 8);
    EndTagToken "head";
    TextToken (indent 8);
    start_tag "body" [];
    TextToken (indent 12);
    start_tag "div" [("itemscope", ""); ("itemtype", "http://schema.org/Offer")];
    TextToken (indent 16);
    start_tag "span" [("itemprop", "name")];
    TextToken (bytes_of "Blend-O-Matic");
    EndTagToken "span";
    TextToken (indent 16);
    start_tag "span" [("itemprop", "price")];
    TextToken (bytes_of "$19.95");
    EndTagToken "span";
    TextToken (indent 16);
    start_tag "div" [("itemprop", "reviews"); ("itemscope", ""); ("itemtype", "http://schema.org/AggregateRating")];
    TextToken (indent 20);
    self_closing_tag "img" [("src", "four-stars.jpg")];
    TextToken (indent 20);
    self_closing_tag "meta" [("itemprop", "ratingValue"); ("content", "4")];
    TextToken (indent 20);
    self_closing_tag "meta" [("itemprop", "bestRating"); ("content", "5")];
    TextToken (indent 20 ++ bytes_of "Based on ");
    start_tag "span" [("itemprop", "ratingCount")];
    TextToken (bytes_of "25");
    EndTagToken "span";
    TextToken (bytes_of " user ratings" ++ indent 16);
    EndTagToken "div";
    TextToken (indent 12);
    EndTagToken "div";
    TextToken (indent 12);
    start_tag "div" [("itemscope", ""); ("itemtype", "http://schema.org/Event")];
    TextToken (indent 16);
    start_tag "div" [("itemprop", "name")];
    TextToken (bytes_of "Spinal Tap");
    EndTagToken "div";
    TextToken (indent 16);
    start_tag "span" [("itemprop", "description")];
    TextToken (bytes_of "One of the loudest bands ever reunites for an unforgettable two-day show.");
    EndTagToken "span";
    TextToken (indent 16 ++ bytes_of "Event date:" ++ indent 16);
    start_tag "time" [("itemprop", "startDate"); ("datetime", "2011-05-08T19:30")];
    TextToken (bytes_of "May 8, 7:30pm");
    EndTagToken "time";
    TextToken (indent 12);
    EndTagToken "div";
    TextToken (indent 12);
    start_tag "div" [("itemscope", ""); ("itemtype", "http://schema.org/Person")];
    TextToken (indent 14);
    start_tag "a" [("href", "alice.html"); ("itemprop", "url")];
    TextToken (bytes_of "Alice Jones");
    EndTagToken "a";
    TextToken (indent 12);
    EndTagToken "div";
    TextToken (indent 12);
    start_tag "div" [("itemscope", ""); ("itemtype", "http://schema.org/Person")];
    TextToken (indent 14);
    start_tag "a" [("href", "bob.html"); ("itemprop", "url")];
    TextToken (bytes_of "Bob Smith");
    EndTagToken "a";
    TextToken (indent 12);
    EndTagToken "div";
    TextToken (indent 8);
    EndTagToken "body";
    TextToken (indent 4);
    EndTagToken "html";
    TextToken (indent 0) ].

(** Sample states and attributes.

    The attributes of [<meta property="og:title" content="The Rock">]. *)
Definition title_attrs : gmap string string :=
  AttrMap true [("property", "og:title"); ("content", "The Rock")].

(** The attributes of [<a href="alice.html" itemprop="url">]. *)
Definition link_attrs : gmap string string :=
  AttrMap true [("href", "alice.html"); ("itemprop", "url")].

(** A MetaReader that has seen [<head>] and nothing else. *)
Definition in_head : MetaReader.t := MetaReader.mk [] [] false true.

(** A SchemaReader that has seen [<div itemscope itemtype="Person">]. *)
Definition in_person : SchemaReader.t :=
  SchemaReader.mk [ItemScope.mk "div" "Person" "" [] []] [0] [0] [true] false false.

(** The same after [<a href="alice.html" itemprop="url">]. *)
Definition in_link : SchemaReader.t :=
  SchemaReader.mk
    [ItemScope.mk "div" "Person" "" [ItemProp.mk "a" "url" "" "alice.html" ""] []]
    [0] [0] [true; false] true false.

(** The reading of C5 as it is stated: the text following the start tag of
    an [itemprop] element changes the content of the ItemProp only if the tag
    gave it no [content], [href] or [datetime]. *)
Definition text_fills_only_bare_props : Prop :=
  ∀ tn attrs itemprop text r s r',
    SchemaReader.inHead r = false → tn ≠ "head" →
    SchemaReader.current r = Some s → s < length (SchemaReader.heap r) →
    attrs !! "itemscope" = None → attrs !! "itemprop" = Some itemprop →
    SchemaReader.HandleText text (SchemaReader.HandleStart tn attrs r) = OK r' →
    ItemProp.Content <$> last (ItemScope.Props (SchemaReader.load r' s))
    ≠ ItemProp.Content <$>
        last (ItemScope.Props
                (SchemaReader.load (SchemaReader.HandleStart tn attrs r) s)) →
    index attrs "content" = "" ∧ index attrs "href" = "" ∧ index attrs "datetime" = "".

(** *** Vocabulary of the further properties *)

(** [tok] opens an element named [tn]: a start tag or a self-closing tag. *)
Definition opens (tn : string) (tok : Token) : Prop :=
  match tok with
  | StartTagToken tn' _ _ | SelfClosingTagToken tn' _ _ => tn' = tn
  | _ => False
  end.

(** [tok] closes an element named [tn]: an end tag or a self-closing tag. *)
Definition closes (tn : string) (tok : Token) : Prop :=
  match tok with
  | EndTagToken tn' | SelfClosingTagToken tn' _ _ => tn' = tn
  | _ => False
  end.

(** [tok] is a tag whose attribute map has the key [k]. *)
Definition carries (k : string) (tok : Token) : Prop :=
  match tok with
  | StartTagToken _ hasAttr z | SelfClosingTagToken _ hasAttr z =>
      is_Some (AttrMap hasAttr z !! k)
  | _ => False
  end.

(** The texts of the text tokens of a stream, in order. *)
Definition texts_of (toks : list Token) : list bytes :=
  omap (λ tok, match tok with TextToken text => Some text | _ => None end) toks.

(** A list of pointers in allocation order. *)
Definition increasing (l : list ptr) : Prop :=
  ∀ i j x y, i < j → l !! i = Some x → l !! j = Some y → x < y.

(** The PageReader on its own: its handlers on a page that consists of the
    two fields it writes, [(Title, Text)]. *)
Definition pageReader_alone : TokenReader.t (PageReader.t * (string * string)) :=
  {| TokenReader.HandleStart tn attrs s := OK (PageReader.HandleStart tn s.1, s.2);
     TokenReader.HandleEnd tn s := OK (PageReader.HandleEnd tn s.1, s.2);
     TokenReader.HandleText text s :=
       OK (PageReader.HandleText (λ v page, (v, page.2)) text s.1 s.2);
     TokenReader.Done s := OK (PageReader.Done (λ v page, (page.1, v)) s.1 s.2) |}.

(** The Metas of a MetaReader are in document order (pointers are handed
    out in the order of the meta tags): the top-level list is increasing, so
    is every [Extra], and the entries of an [Extra] come after the Meta that
    holds them. *)
Record meta_ordered (r : MetaReader.t) : Prop := {
  meta_items_increasing : increasing (MetaReader.items r);
  meta_extra_increasing : ∀ p, increasing (Meta.Extra (MetaReader.load r p));
  meta_extra_after : ∀ p q, q ∈ Meta.Extra (MetaReader.load r p) → p < q
}.

(** The number of folded Metas: the entries of all the [Extra] lists. *)
Definition folded (r : MetaReader.t) : nat :=
  sum_list ((λ m, length (Meta.Extra m)) <$> MetaReader.heap r).

(** Every entry of an [Extra] has a property that extends, after a colon,
    the property of the Meta that holds it. *)
Definition extends_parent (r : MetaReader.t) : Prop :=
  ∀ p q, q ∈ Meta.Extra (MetaReader.load r p) →
    String.prefix (Meta.Property (MetaReader.load r p) +:+ ":")
      (Meta.Property (MetaReader.load r q)) = true.

(** A SchemaReader with no scope open: the stack is empty, no property is
    being read, and no marker announces a scope to pop. *)
Definition no_scope_open (r : SchemaReader.t) : Prop :=
  SchemaReader.stack r = []
  ∧ SchemaReader.insideProp r = false
  ∧ Forall (λ m, m = false) (SchemaReader.breadcrumbs r).

(** The scopes of a SchemaReader form a forest in document order (pointers
    are handed out in the order of the [itemscope] tags): the roots are
    increasing and allocated, the children of every scope are increasing,
    allocated, and come after the scope itself. *)
Record schema_forest (r : SchemaReader.t) : Prop := {
  forest_roots : increasing (SchemaReader.items r);
  forest_roots_allocated :
    ∀ p, p ∈ SchemaReader.items r → p < length (SchemaReader.heap r);
  forest_children : ∀ p, increasing (ItemScope.Children (SchemaReader.load r p));
  forest_parent :
    ∀ p q, q ∈ ItemScope.Children (SchemaReader.load r p) →
      p < q ∧ q < length (SchemaReader.heap r)
}.

(** The number of scopes that are the child of a scope. *)
Definition nested (r : SchemaReader.t) : nat :=
  sum_list ((λ s, length (ItemScope.Children s)) <$> SchemaReader.heap r).

(** A SchemaReader that has read [person_scope], and one that has read it
    twice. *)
Definition after_person : SchemaReader.t :=
  SchemaReader.mk
    [ItemScope.mk "div" "Person" "" [ItemProp.mk "a" "url" "Alice Jones" "alice.html" ""] []]
    [0] [] [] false false.
Definition after_two_persons : SchemaReader.t :=
  SchemaReader.mk
    [ ItemScope.mk "div" "Person" "" [ItemProp.mk "a" "url" "Alice Jones" "alice.html" ""] [];
      ItemScope.mk "div" "Person" "" [ItemProp.mk "a" "url" "Alice Jones" "alice.html" ""] [] ]
    [0; 1] [] [] false false.

(** The page [Scrape] starts from. *)
Definition empty_page (url : string) : Page.t :=
  Page.mk url "" "" "" MetaReader.new SchemaReader.new PageReader.new.



(** ** Slices and the error monad *)

Section slices.
Context {A : Type}.

Lemma init_snoc (s : list A) x : init (s ++ [x]) = s.
Proof.
  unfold init. rewrite length_app. simpl.
  replace (length s + 1 - 1) with (length s) by lia.
  by rewrite take_app_length.
Qed.

Lemma last_None_nil (s : list A) : last s = None → s = [].
Proof. destruct s as [|x s] using rev_ind; [done|]. by rewrite last_snoc. Qed.

Lemma last_Some_snoc (s : list A) x : last s = Some x → s = init s ++ [x].
Proof.
  destruct s as [|y s _] using rev_ind; [done|].
  rewrite last_snoc, init_snoc. by intros [= ->].
Qed.

Lemma last_elem_of (s : list A) x : last s = Some x → x ∈ s.
Proof. intros H. rewrite (last_Some_snoc _ _ H). set_solver. Qed.

Lemma init_prefix (s : list A) : init s `prefix_of` s.
Proof. apply prefix_take. Qed.

Lemma alter_snoc (f : A → A) (s : list A) x :
  alter f (length s) (s ++ [x]) = s ++ [f x].
Proof.
  replace (length s) with (length s + 0) at 1 by lia.
  by rewrite alter_app_r.
Qed.
End slices.

Lemma bind_OK {A B : Type} (m : outcome A) (f : A → outcome B) b :
  (m ≫= f) = OK b → ∃ a, m = OK a ∧ f a = OK b.
Proof. destruct m as [a| |]; [|done..]. intros H. by exists a. Qed.

Lemma run_app {S : Type} (rd : TokenReader.t S) (l1 l2 : list Token) (s : S) :
  run rd (l1 ++ l2) s = run rd l1 s ≫= run rd l2.
Proof.
  revert s. induction l1 as [|tok l1 IH]; intros s; simpl; [done|].
  destruct (feed rd tok s) as [s'| |]; simpl; [apply IH|done..].
Qed.

Lemma run_snoc {S : Type} (rd : TokenReader.t S) (l : list Token) tok (s : S) :
  run rd (l ++ [tok]) s = run rd l s ≫= feed rd tok.
Proof.
  rewrite run_app. destruct (run rd l s) as [s'| |]; simpl; [|done..].
  by destruct (feed rd tok s').
Qed.

(** ** The MetaReader *)

(** What a [meta] start tag inside the head does, in one piece. *)
Lemma MetaReader_HandleStart_meta attrs r :
  MetaReader.inHead r = true →
  MetaReader.HandleStart "meta" attrs r =
    let h := MetaReader.heap r ++ [meta_of attrs] in
    let m := length (MetaReader.heap r) in
    let folded :=
      match MetaReader.current r with
      | Some c =>
          Some (c, String.prefix (Meta.Property (h !!! c) +:+ ":") (index attrs "property"))
      | None => None
      end in
    match folded with
    | Some (c, true) =>
        OK (MetaReader.mk
              (alter (λ c, Meta.set_Extra (Meta.Extra c ++ [m]) c) c h)
              (MetaReader.items r) true true)
    | _ => OK (MetaReader.mk h (MetaReader.items r ++ [m]) true true)
    end.
Proof.
  destruct r as [h it ins hd]. simpl. intros ->.
  unfold MetaReader.HandleStart, MetaReader.current, MetaReader.store,
    MetaReader.load, MetaReader.deref, MetaReader.makeCurrentExtra,
    MetaReader.pop, MetaReader.load. simpl.
  rewrite !alter_snoc. simpl.
  rewrite list_lookup_total_middle by done. simpl.
  fold (meta_of attrs).
  destruct (last it) as [c|] eqn:Hlast; simpl; [|done].
  destruct (String.prefix _ _); [|done].
  rewrite last_snoc. simpl. rewrite init_snoc.
  unfold MetaReader.current. simpl. by rewrite Hlast.
Qed.

(** A start tag never stops the MetaReader, whatever its state: the fold is
    attempted only behind the test [exists]. *)
Lemma MetaReader_HandleStart_returns tn attrs r :
  ∃ r', MetaReader.HandleStart tn attrs r = OK r'.
Proof.
  destruct (decide (tn = "meta")) as [->|Hmeta].
  - destruct (MetaReader.inHead r) eqn:Hhd.
    + rewrite MetaReader_HandleStart_meta by done. simpl.
      destruct (MetaReader.current r) as [c|]; [|by eexists].
      destruct (String.prefix _ _); by eexists.
    + unfold MetaReader.HandleStart. rewrite Hhd. simpl. by eexists.
  - unfold MetaReader.HandleStart.
    destruct (decide (tn = "head")); [by eexists|].
    destruct (decide (tn = "meta")); [done|by eexists].
Qed.

Lemma MetaReader_feed_returns tok r : ∃ r', feed MetaReader.reader tok r = OK r'.
Proof.
  destruct tok as [text|tn ha z|tn|tn ha z|text|text]; simpl; try by eexists.
  - apply MetaReader_HandleStart_returns.
  - destruct (MetaReader_HandleStart_returns tn (AttrMap ha z) r) as [r' ->].
    simpl. by eexists.
Qed.

Lemma MetaReader_run_returns toks r : ∃ r', run MetaReader.reader toks r = OK r'.
Proof.
  revert r. induction toks as [|tok toks IH]; intros r; simpl; [by eexists|].
  destruct (MetaReader_feed_returns tok r) as [r' ->]. simpl. apply IH.
Qed.

Lemma meta_inv_new : meta_inv MetaReader.new.
Proof.
  split; simpl.
  - intros p Hp. by apply elem_of_nil in Hp.
  - intros p q. unfold MetaReader.load. simpl.
    intros Hq. by apply elem_of_nil in Hq.
Qed.

(** Flags do not matter to the invariant. *)
Lemma meta_inv_flags r ins hd :
  meta_inv r → meta_inv (MetaReader.mk (MetaReader.heap r) (MetaReader.items r) ins hd).
Proof. intros [H1 H2]. by split. Qed.

(** Appending a fresh top-level Meta keeps the invariant. *)
Lemma meta_inv_next r new ins hd :
  meta_inv r → Meta.Extra new = [] →
  meta_inv (MetaReader.mk (MetaReader.heap r ++ [new])
              (MetaReader.items r ++ [length (MetaReader.heap r)]) ins hd).
Proof.
  intros [Hval Hflat] Hnew. unfold MetaReader.load in *.
  split; unfold MetaReader.load; simpl.
  - intros p [Hp| ->%list_elem_of_singleton]%elem_of_app.
    + apply Hval in Hp. rewrite length_app. simpl. lia.
    + rewrite length_app. simpl. lia.
  - intros p q Hq.
    assert (q ∈ Meta.Extra (MetaReader.heap r !!! p)) as Hq'.
    { destruct (decide (p < length (MetaReader.heap r))) as [Hlt|Hge].
      - by rewrite lookup_total_app_l in Hq.
      - destruct (decide (p = length (MetaReader.heap r))) as [->|Hne].
        + rewrite list_lookup_total_middle, Hnew in Hq by done.
          by apply elem_of_nil in Hq.
        + rewrite list_lookup_total_alt, lookup_ge_None_2 in Hq
            by (rewrite length_app; simpl; lia).
          by apply elem_of_nil in Hq. }
    destruct (Hflat p q Hq') as (Hni & Hlt & Hex).
    split_and!.
    + intros [Hin| ->%list_elem_of_singleton]%elem_of_app; [done|lia].
    + rewrite length_app. simpl. lia.
    + by rewrite lookup_total_app_l.
Qed.

(** Folding a fresh Meta into the last top-level one keeps the invariant. *)
Lemma meta_inv_fold r new c ins hd :
  meta_inv r → Meta.Extra new = [] → c ∈ MetaReader.items r →
  meta_inv (MetaReader.mk
              (alter (λ c, Meta.set_Extra (Meta.Extra c ++ [length (MetaReader.heap r)]) c)
                 c (MetaReader.heap r ++ [new]))
              (MetaReader.items r) ins hd).
Proof.
  intros Hinv Hnew Hc.
  pose proof (meta_inv_next r new ins hd Hinv Hnew) as [_ Hflat'].
  destruct Hinv as [Hval Hflat].
  unfold MetaReader.load in *. simpl in *.
  set (h := MetaReader.heap r) in *. set (n := length h) in *.
  assert (c < n) as Hcn by by apply Hval.
  assert (∀ q, q ∉ MetaReader.items r →
            Meta.Extra (alter (λ c, Meta.set_Extra (Meta.Extra c ++ [n]) c) c (h ++ [new]) !!! q)
            = Meta.Extra ((h ++ [new]) !!! q)) as Hother.
  { intros q Hq. rewrite list_lookup_total_alter_ne; [done|]. by intros ->. }
  split; unfold MetaReader.load; simpl.
  - intros p Hp%Hval. rewrite length_alter, length_app. simpl. lia.
  - intros p q Hq. rewrite length_alter, length_app. simpl.
    assert ((q ∉ MetaReader.items r) ∧ q < n + 1) as [Hni Hlt].
    { destruct (decide (c = p)) as [<-|Hne].
      - rewrite list_lookup_total_alter_eq in Hq
          by (rewrite length_app; simpl; lia).
        simpl in Hq. apply elem_of_app in Hq as [Hq| ->%list_elem_of_singleton].
        + destruct (Hflat' c q Hq) as (Hni & Hlt & _).
          rewrite length_app in Hlt. simpl in Hlt.
          split; [|done]. intros Hin. apply Hni, elem_of_app. by left.
        + split; [|lia]. intros Hin%Hval. lia.
      - rewrite list_lookup_total_alter_ne in Hq by done.
        destruct (Hflat' p q Hq) as (Hni & Hlt & _).
        rewrite length_app in Hlt. simpl in Hlt.
        split; [|done]. intros Hin. apply Hni, elem_of_app. by left. }
    split_and!; [done..|].
    rewrite Hother by done.
    destruct (decide (q = n)) as [->|Hqn].
    + by rewrite list_lookup_total_middle.
    + rewrite lookup_total_app_l by lia.
      destruct (decide (c = p)) as [<-|Hne].
      * rewrite list_lookup_total_alter_eq in Hq
          by (rewrite length_app; simpl; lia).
        simpl in Hq. apply elem_of_app in Hq as [Hq| ->%list_elem_of_singleton]; [|done].
        rewrite lookup_total_app_l in Hq by done.
        by destruct (Hflat c q Hq) as (_ & _ & ?).
      * rewrite list_lookup_total_alter_ne in Hq by done.
        destruct (Hflat' p q Hq) as (_ & _ & Hex).
        by rewrite lookup_total_app_l in Hex by lia.
Qed.

Lemma meta_inv_HandleStart tn attrs r r' :
  meta_inv r → MetaReader.HandleStart tn attrs r = OK r' → meta_inv r'.
Proof.
  intros Hinv. destruct (decide (tn = "meta")) as [->|Hmeta].
  - destruct (MetaReader.inHead r) eqn:Hhd.
    + rewrite MetaReader_HandleStart_meta by done. simpl.
      destruct (MetaReader.current r) as [c|] eqn:Hcur.
      * destruct (String.prefix _ _); intros [= <-].
        -- apply meta_inv_fold; [done..|]. by apply last_elem_of.
        -- by apply meta_inv_next.
      * intros [= <-]. by apply meta_inv_next.
    + unfold MetaReader.HandleStart. rewrite Hhd. simpl. by intros [= <-].
  - unfold MetaReader.HandleStart.
    destruct (decide (tn = "head")).
    + intros [= <-]. by apply meta_inv_flags.
    + destruct (decide (tn = "meta")); [done|]. by intros [= <-].
Qed.

Lemma meta_inv_HandleEnd tn r : meta_inv r → meta_inv (MetaReader.HandleEnd tn r).
Proof.
  intros Hinv. unfold MetaReader.HandleEnd.
  repeat case_decide; try done; by apply meta_inv_flags.
Qed.

(** A text event rewrites [Content] only: every [Extra] is as before. *)
Lemma MetaReader_HandleText_Extra text r p :
  Meta.Extra (MetaReader.load (MetaReader.HandleText text r) p)
  = Meta.Extra (MetaReader.load r p).
Proof.
  unfold MetaReader.HandleText.
  destruct (MetaReader.inside r && MetaReader.inHead r); [|done].
  destruct (MetaReader.current r) as [c|]; [|done].
  case_decide; [|done].
  unfold MetaReader.load, MetaReader.store. simpl.
  rewrite list_lookup_total_alter. by destruct (decide _) as [[-> ?]|?].
Qed.

Lemma MetaReader_HandleText_shape text r :
  MetaReader.items (MetaReader.HandleText text r) = MetaReader.items r
  ∧ length (MetaReader.heap (MetaReader.HandleText text r)) = length (MetaReader.heap r).
Proof.
  unfold MetaReader.HandleText.
  destruct (MetaReader.inside r && MetaReader.inHead r); [|done].
  destruct (MetaReader.current r) as [c|]; [|done].
  case_decide; [|done].
  unfold MetaReader.store. simpl. by rewrite length_alter.
Qed.

Lemma meta_inv_HandleText text r : meta_inv r → meta_inv (MetaReader.HandleText text r).
Proof.
  intros [Hval Hflat].
  destruct (MetaReader_HandleText_shape text r) as [Hit Hlen].
  split.
  - intros p. rewrite Hit, Hlen. apply Hval.
  - intros p q. rewrite !MetaReader_HandleText_Extra, Hit, Hlen. apply Hflat.
Qed.

Lemma meta_inv_feed tok r r' :
  meta_inv r → feed MetaReader.reader tok r = OK r' → meta_inv r'.
Proof.
  intros Hinv.
  destruct tok as [text|tn ha z|tn|tn ha z|text|text]; simpl.
  - intros [= <-]. by apply meta_inv_HandleText.
  - by apply meta_inv_HandleStart.
  - intros [= <-]. by apply meta_inv_HandleEnd.
  - intros (r1 & H1 & [= <-])%bind_OK.
    apply meta_inv_HandleEnd. by eapply meta_inv_HandleStart.
  - by intros [= <-].
  - by intros [= <-].
Qed.

Lemma meta_inv_run toks r r' :
  meta_inv r → run MetaReader.reader toks r = OK r' → meta_inv r'.
Proof.
  revert r. induction toks as [|tok toks IH]; intros r Hinv; simpl.
  - by intros [= <-].
  - intros (r1 & H1 & H2)%bind_OK. eapply IH; [|done]. by eapply meta_inv_feed.
Qed.

Lemma meta_inv_one_level r : meta_inv r → one_level r.
Proof.
  intros [Hval Hflat] p Hp. split; [by apply Hval|].
  intros q Hq. by destruct (Hflat p q Hq) as (_ & ? & ?).
Qed.

(** C1. Fold depth bound: for every token stream the MetaReader runs to the
    end, and in its result every entry of the [Extra] of a top-level Meta is
    a Meta without [Extra] of its own: nesting is never two levels deep. *)
Theorem fold_depth_bound (toks : list Token) :
  ∃ r, run MetaReader.reader toks MetaReader.new = OK r ∧ one_level r.
Proof.
  destruct (MetaReader_run_returns toks MetaReader.new) as [r Hr].
  exists r. split; [done|].
  apply meta_inv_one_level. eapply meta_inv_run; [apply meta_inv_new|done].
Qed.

(** ** The SchemaReader: the two stacks *)

Lemma SchemaReader_HandleStart_head attrs r :
  SchemaReader.HandleStart "head" attrs r = SchemaReader.set_inHead true r.
Proof. done. Qed.

Lemma SchemaReader_HandleStart_inHead tn attrs r :
  SchemaReader.inHead r = true → SchemaReader.HandleStart tn attrs r = r.
Proof.
  destruct r as [h it st bc ip hd]. simpl. intros ->.
  unfold SchemaReader.HandleStart. by case_decide.
Qed.

(** A start tag without attributes, anywhere: only [head] has an effect, and
    no marker is pushed. *)
Lemma SchemaReader_HandleStart_no_attrs tn r :
  SchemaReader.HandleStart tn ∅ r
  = if decide (tn = "head") then SchemaReader.set_inHead true r else r.
Proof.
  unfold SchemaReader.HandleStart.
  case_decide; simpl; [done|]. by rewrite orb_true_r.
Qed.

(** A start tag outside the head: the ways the two stacks can change. *)
Lemma SchemaReader_HandleStart_stacks tn attrs r :
  tn ≠ "head" → SchemaReader.inHead r = false →
  let r' := SchemaReader.HandleStart tn attrs r in
  SchemaReader.inHead r' = false
  ∧ ((SchemaReader.breadcrumbs r' = SchemaReader.breadcrumbs r
      ∧ SchemaReader.stack r' = SchemaReader.stack r)
     ∨ (SchemaReader.breadcrumbs r' = SchemaReader.breadcrumbs r ++ [false]
        ∧ SchemaReader.stack r' = SchemaReader.stack r)
     ∨ (SchemaReader.breadcrumbs r' = SchemaReader.breadcrumbs r ++ [true]
        ∧ SchemaReader.stack r'
          = SchemaReader.stack r ++ [length (SchemaReader.heap r)])).
Proof.
  destruct r as [h it st bc ip hd]. simpl. intros Htn ->.
  unfold SchemaReader.HandleStart.
  destruct (decide (tn = "head")); [done|]. simpl.
  destruct (bool_decide (size attrs = 0)); simpl; [by auto|].
  destruct (bool_decide (is_Some (attrs !! "itemscope"))); simpl.
  - split; [|right; right];
      unfold SchemaReader.next; simpl; by destruct (last st).
  - unfold SchemaReader.current. simpl.
    destruct (last st), (attrs !! "itemprop"); simpl; by auto.
Qed.

Lemma SchemaReader_HandleEnd_inHead tn r :
  SchemaReader.inHead r = true →
  SchemaReader.HandleEnd tn r
  = OK (if decide (tn = "head") then SchemaReader.set_inHead false r else r).
Proof. intros H. unfold SchemaReader.HandleEnd. by rewrite H. Qed.

(** An end tag outside the head drops the last marker, if there is one. *)
Lemma SchemaReader_HandleEnd_stacks tn r r' :
  SchemaReader.inHead r = false →
  SchemaReader.HandleEnd tn r = OK r' →
  SchemaReader.inHead r' = false
  ∧ SchemaReader.insideProp r' = false
  ∧ SchemaReader.breadcrumbs r' = init (SchemaReader.breadcrumbs r)
  ∧ SchemaReader.stack r'
    = if default false (last (SchemaReader.breadcrumbs r))
      then init (SchemaReader.stack r) else SchemaReader.stack r.
Proof.
  destruct r as [h it st bc ip hd]. simpl. intros ->.
  unfold SchemaReader.HandleEnd. simpl.
  destruct (last bc) as [[]|] eqn:Hbc; simpl.
  - unfold SchemaReader.pop, SchemaReader.current. simpl.
    destruct (last st); simpl; [|done]. by intros [= <-].
  - by intros [= <-].
  - intros [= <-]. by rewrite (last_None_nil _ Hbc).
Qed.

Lemma SchemaReader_HandleText_stacks text r r' :
  SchemaReader.HandleText text r = OK r' →
  SchemaReader.inHead r' = SchemaReader.inHead r
  ∧ SchemaReader.insideProp r' = SchemaReader.insideProp r
  ∧ SchemaReader.breadcrumbs r' = SchemaReader.breadcrumbs r
  ∧ SchemaReader.stack r' = SchemaReader.stack r.
Proof.
  unfold SchemaReader.HandleText.
  destruct (SchemaReader.insideProp r) eqn:Hip; [|by intros [= <-]].
  destruct (SchemaReader.current r); [|done].
  case_decide; [done|]. intros [= <-]. simpl. by rewrite Hip.
Qed.

Lemma settles_refl r : settles r r.
Proof.
  destruct (SchemaReader.inHead r) eqn:Hhd; [by left|by right].
Qed.

Lemma settles_trans r1 r2 r3 : settles r1 r2 → settles r2 r3 → settles r1 r3.
Proof.
  intros [(H1 & H2 & H3)|(H2 & H3)] [(G1 & G2 & G3)|(G2 & G3)].
  - left. by rewrite G3.
  - right. by rewrite <-H3.
  - congruence.
  - right. split; [done|]. by etrans.
Qed.

Lemma prefix_snoc_init {A : Type} (l k : list A) x :
  l `prefix_of` k ++ [x] → init l `prefix_of` k.
Proof.
  intros [t Ht]. destruct t as [|y t _] using rev_ind.
  - rewrite app_nil_r in Ht. subst l. by rewrite init_snoc.
  - rewrite app_assoc in Ht. apply app_inj_tail in Ht as [-> _].
    etrans; [apply init_prefix|]. by apply prefix_app_r.
Qed.

(** An element, from its start tag to its end tag, settles when its content does. *)
Lemma settles_elem tn attrs r r1 r2 :
  settles (SchemaReader.HandleStart tn attrs r) r1 →
  SchemaReader.HandleEnd tn r1 = OK r2 →
  settles r r2.
Proof.
  intros Hin Hend.
  destruct (SchemaReader.inHead r1) eqn:Hhd1.
  - (* the content ends inside the head *)
    destruct Hin as [(H1 & _ & H3)|[H2 _]]; [|congruence].
    rewrite SchemaReader_HandleEnd_inHead in Hend by done.
    assert (SchemaReader.breadcrumbs r1 = SchemaReader.breadcrumbs r) as Hbc.
    { rewrite H3. destruct (SchemaReader.inHead r) eqn:Hhd.
      - by rewrite SchemaReader_HandleStart_inHead.
      - destruct (decide (tn = "head")) as [->|Htn]; [done|].
        destruct (SchemaReader_HandleStart_stacks tn attrs r Htn Hhd) as [? _].
        congruence. }
    destruct (decide (tn = "head")) as [->|Htn]; injection Hend as <-.
    + right. simpl. by rewrite Hbc.
    + left. destruct (SchemaReader.inHead r) eqn:Hhd; [done|].
      destruct (SchemaReader_HandleStart_stacks tn attrs r Htn Hhd) as [? _].
      congruence.
  - (* the content ends outside the head: the end tag drops a marker *)
    destruct (SchemaReader_HandleEnd_stacks tn r1 r2 Hhd1 Hend) as (E1 & _ & E3 & _).
    right. split; [done|]. rewrite E3.
    destruct Hin as [(_ & H2 & _)|[_ H3]]; [congruence|].
    destruct (SchemaReader.inHead r) eqn:Hhd.
    + rewrite SchemaReader_HandleStart_inHead in H3 by done.
      etrans; [apply init_prefix|done].
    + destruct (decide (tn = "head")) as [->|Htn].
      { etrans; [apply init_prefix|done]. }
      destruct (SchemaReader_HandleStart_stacks tn attrs r Htn Hhd)
        as (_ & [[Hb _]|[[Hb _]|[Hb _]]]); rewrite Hb in H3.
      * etrans; [apply init_prefix|done].
      * by eapply prefix_snoc_init.
      * by eapply prefix_snoc_init.
Qed.

Lemma settles_HandleText text r r' :
  SchemaReader.HandleText text r = OK r' → settles r r'.
Proof.
  intros (H1 & _ & H3 & _)%SchemaReader_HandleText_stacks.
  destruct (SchemaReader.inHead r) eqn:Hhd; [left|right]; rewrite ?H3; done.
Qed.

(** A well-nested stream settles. *)
Lemma balanced_settles toks :
  balanced toks →
  ∀ r r', run SchemaReader.reader toks r = OK r' → settles r r'.
Proof.
  induction 1 as [|text l _ IH|text l _ IH|text l _ IH|tn ha z l _ IH
                 |tn ha z l1 l2 _ IH1 _ IH2]; intros r r'.
  - intros [= <-]. apply settles_refl.
  - simpl. intros (r1 & H1 & H2)%bind_OK.
    eapply settles_trans; [by eapply settles_HandleText|by apply IH].
  - simpl. apply IH.
  - simpl. apply IH.
  - simpl. intros (r2 & H2 & H3)%bind_OK.
    eapply settles_trans; [|by apply IH].
    eapply settles_elem; [apply settles_refl|done].
  - simpl. rewrite run_app.
    intros (r1 & H1 & H2)%bind_OK.
    simpl in H2. apply bind_OK in H2 as (r2 & H2 & H3).
    eapply settles_trans; [|by apply IH2].
    eapply settles_elem; [|done]. by apply IH1.
Qed.

Lemma scopes_marked_snoc bc (m : bool) :
  scopes_marked (bc ++ [m]) = scopes_marked bc + (if m then 1 else 0).
Proof.
  unfold scopes_marked. rewrite filter_app, length_app.
  by destruct m.
Qed.

Lemma length_init {A : Type} (s : list A) : length (init s) = length s - 1.
Proof. unfold init. rewrite length_take. lia. Qed.

Lemma stacks_agree_HandleStart tn attrs r :
  stacks_agree r → stacks_agree (SchemaReader.HandleStart tn attrs r).
Proof.
  intros Hr. destruct (SchemaReader.inHead r) eqn:Hhd.
  { by rewrite SchemaReader_HandleStart_inHead. }
  destruct (decide (tn = "head")) as [->|Htn]; [done|].
  destruct (SchemaReader_HandleStart_stacks tn attrs r Htn Hhd)
    as (_ & [[Hb Hs]|[[Hb Hs]|[Hb Hs]]]);
    unfold stacks_agree in *; rewrite Hb, Hs, ?scopes_marked_snoc, ?length_app;
    simpl; lia.
Qed.

(** With the stacks in agreement an end tag never slices an empty stack. *)
Lemma stacks_agree_HandleEnd tn r :
  stacks_agree r →
  ∃ r', SchemaReader.HandleEnd tn r = OK r' ∧ stacks_agree r'.
Proof.
  intros Hr. destruct (SchemaReader.inHead r) eqn:Hhd.
  { rewrite SchemaReader_HandleEnd_inHead by done. eexists. split; [done|].
    by case_decide. }
  assert (∃ r', SchemaReader.HandleEnd tn r = OK r') as [r' Hr'].
  { unfold SchemaReader.HandleEnd. rewrite Hhd.
    destruct (last _) as [[]|] eqn:Hbc; simpl in *; [|by eexists..].
    unfold SchemaReader.pop, SchemaReader.current. simpl.
    destruct (last (SchemaReader.stack r)) eqn:Hst; simpl; [by eexists|].
    apply last_None_nil in Hst. apply last_Some_snoc in Hbc.
    unfold stacks_agree in Hr.
    rewrite Hst, Hbc, scopes_marked_snoc in Hr. simpl in Hr. lia. }
  exists r'. split; [done|].
  destruct (SchemaReader_HandleEnd_stacks tn r r' Hhd Hr') as (_ & _ & Hb & Hs).
  unfold stacks_agree in *. rewrite Hb, Hs.
  destruct (last (SchemaReader.breadcrumbs r)) as [m|] eqn:Hbc; simpl.
  - apply last_Some_snoc in Hbc. rewrite Hbc, scopes_marked_snoc in Hr.
    rewrite Hbc at 1. rewrite init_snoc.
    destruct m; rewrite ?length_init; lia.
  - apply last_None_nil in Hbc. by rewrite Hbc in *.
Qed.

Lemma stacks_agree_feed tok r :
  stacks_agree r →
  match feed SchemaReader.reader tok r with
  | OK r' => stacks_agree r'
  | Fatal _ => True
  | Panic => False
  end.
Proof.
  intros Hr. destruct tok as [text|tn ha z|tn|tn ha z|text|text]; simpl.
  - destruct (SchemaReader.HandleText text r) as [r'| |] eqn:Ht; [|done|].
    + apply SchemaReader_HandleText_stacks in Ht as (_ & _ & Hb & Hs).
      unfold stacks_agree in *. by rewrite Hb, Hs.
    + unfold SchemaReader.HandleText in Ht. repeat case_match; done.
  - by apply stacks_agree_HandleStart.
  - by destruct (stacks_agree_HandleEnd tn r Hr) as (r' & -> & ?).
  - by destruct (stacks_agree_HandleEnd tn _
                   (stacks_agree_HandleStart tn (AttrMap ha z) r Hr)) as (r' & -> & ?).
  - done.
  - done.
Qed.

Lemma stacks_agree_run toks r :
  stacks_agree r →
  match run SchemaReader.reader toks r with
  | OK r' => stacks_agree r'
  | Fatal _ => True
  | Panic => False
  end.
Proof.
  revert r. induction toks as [|tok toks IH]; intros r Hr; simpl; [done|].
  pose proof (stacks_agree_feed tok r Hr) as Hf.
  destruct (feed SchemaReader.reader tok r) as [r1| |]; simpl; [by apply IH|done..].
Qed.

Lemma stack_allocated_HandleStart tn attrs r :
  stack_allocated r → stack_allocated (SchemaReader.HandleStart tn attrs r).
Proof.
  destruct r as [h it st bc ip hd]. unfold stack_allocated. simpl. intros Hr.
  unfold SchemaReader.HandleStart.
  destruct (decide (tn = "head")); simpl.
  { done. }
  destruct (hd || bool_decide (size attrs = 0)); simpl; [done|].
  destruct (bool_decide (is_Some (attrs !! "itemscope"))); simpl.
  - unfold SchemaReader.next. simpl.
    assert (∀ h' : list ItemScope.t, length h' = S (length h) →
              ∀ s, s ∈ st ++ [length h] → s < length h') as Hgrow.
    { intros h' Hh' s [Hs%Hr| ->%list_elem_of_singleton]%elem_of_app; lia. }
    destruct (last st); simpl; intros s Hs; eapply Hgrow; try done;
      rewrite !length_alter, length_app; simpl; lia.
  - unfold SchemaReader.current. simpl.
    destruct (last st) as [cur|], (attrs !! "itemprop") as [itemprop|]; simpl; try done.
    intros s Hs. rewrite length_alter. by apply Hr.
Qed.

Lemma stack_allocated_feed tok r r' :
  stack_allocated r → feed SchemaReader.reader tok r = OK r' → stack_allocated r'.
Proof.
  assert (∀ tn r r', stack_allocated r → SchemaReader.HandleEnd tn r = OK r' →
            stack_allocated r') as Hend.
  { intros tn r0 r1 Hr Hr1. destruct (SchemaReader.inHead r0) eqn:Hhd.
    - rewrite SchemaReader_HandleEnd_inHead in Hr1 by done. injection Hr1 as <-.
      by case_decide.
    - assert (length (SchemaReader.heap r1) = length (SchemaReader.heap r0)) as Hlen.
      { unfold SchemaReader.HandleEnd, SchemaReader.pop in Hr1. rewrite Hhd in Hr1.
        repeat case_match; simplify_eq/=; done. }
      destruct (SchemaReader_HandleEnd_stacks tn r0 r1 Hhd Hr1) as (_ & _ & _ & Hs).
      intros s. rewrite Hs, Hlen. intros Hin. apply Hr.
      destruct (default false _); [|done].
      by eapply elem_of_prefix; [|apply init_prefix]. }
  intros Hr. destruct tok as [text|tn ha z|tn|tn ha z|text|text]; simpl.
  - intros Ht. pose proof Ht as (_ & _ & _ & Hs)%SchemaReader_HandleText_stacks.
    assert (length (SchemaReader.heap r') = length (SchemaReader.heap r)) as Hlen.
    { unfold SchemaReader.HandleText in Ht.
      repeat case_match; simplify_eq/=; by rewrite ?length_alter. }
    intros s. rewrite Hs, Hlen. apply Hr.
  - intros [= <-]. by apply stack_allocated_HandleStart.
  - by apply Hend.
  - apply Hend. by apply stack_allocated_HandleStart.
  - by intros [= <-].
  - by intros [= <-].
Qed.

(** Along every run the scopes on the stack are objects of the store. *)
Lemma stack_allocated_run toks r r' :
  stack_allocated r → run SchemaReader.reader toks r = OK r' → stack_allocated r'.
Proof.
  revert r. induction toks as [|tok toks IH]; intros r Hr; simpl.
  - by intros [= <-].
  - intros (r1 & H1 & H2)%bind_OK. eapply IH; [|done]. by eapply stack_allocated_feed.
Qed.

(** The SchemaReader never panics: the only way it stops before the end of
    the stream is the [log.Fatalln] of [HandleText]. *)
Lemma SchemaReader_never_panics toks :
  run SchemaReader.reader toks SchemaReader.new ≠ Panic.
Proof.
  pose proof (stacks_agree_run toks SchemaReader.new eq_refl) as H.
  intros Hp. by rewrite Hp in H.
Qed.

(** C3 (as amended). Scope/marker balance on well-nested streams: if every
    start tag is closed by an end tag of the same name and elements nest,
    then when the SchemaReader reaches the end of the stream its scope stack
    and its marker stack are both empty. *)
Theorem scope_marker_balance (toks : list Token) (r : SchemaReader.t) :
  balanced toks →
  run SchemaReader.reader toks SchemaReader.new = OK r →
  SchemaReader.stack r = [] ∧ SchemaReader.breadcrumbs r = [].
Proof.
  intros Hbal Hrun.
  assert (SchemaReader.breadcrumbs r = []) as Hbc.
  { destruct (balanced_settles toks Hbal _ _ Hrun) as [(_ & _ & H)|[_ H]].
    - done.
    - by apply prefix_nil_inv in H. }
  split; [|done].
  pose proof (stacks_agree_run toks SchemaReader.new eq_refl) as Hagree.
  rewrite Hrun in Hagree. unfold stacks_agree in Hagree.
  rewrite Hbc in Hagree. by apply length_zero_iff_nil.
Qed.

(** ** The SchemaReader on sample documents *)

(** C3 (as stated) fails: after [<div itemscope>] and the end of the stream
    the scope and its marker are still on the stacks. *)
Lemma unclosed_scope_stays_open :
  run SchemaReader.reader unclosed_scope SchemaReader.new
  = OK (SchemaReader.mk [ItemScope.mk "div" "" "" [] []] [0] [0] [true] false false)
  ∧ ¬ (SchemaReader.stack
         (SchemaReader.mk [ItemScope.mk "div" "" "" [] []] [0] [0] [true] false false) = []
       ∧ SchemaReader.breadcrumbs
           (SchemaReader.mk [ItemScope.mk "div" "" "" [] []] [0] [0] [true] false false) = []).
Proof. split; [by vm_compute|]. by intros [? _]. Qed.

Lemma person_scope_balanced : balanced person_scope.
Proof.
  apply (balanced_elem "div" _ _
           [start_tag "a" _; TextToken _; EndTagToken "a"] []); [|constructor].
  apply (balanced_elem "a" _ _ [TextToken _] []); repeat constructor.
Qed.

Lemma scope_marker_balance_witness :
  balanced person_scope
  ∧ run SchemaReader.reader person_scope SchemaReader.new
    = OK (SchemaReader.mk
            [ItemScope.mk "div" "Person" ""
               [ItemProp.mk "a" "url" "Alice Jones" "alice.html" ""] []]
            [0] [] [] false false)
  ∧ SchemaReader.stack
      (SchemaReader.mk
         [ItemScope.mk "div" "Person" ""
            [ItemProp.mk "a" "url" "Alice Jones" "alice.html" ""] []]
         [0] [] [] false false) = []
  ∧ SchemaReader.breadcrumbs
      (SchemaReader.mk
         [ItemScope.mk "div" "Person" ""
            [ItemProp.mk "a" "url" "Alice Jones" "alice.html" ""] []]
         [0] [] [] false false) = [].
Proof.
  split; [apply person_scope_balanced|].
  split; [by vm_compute|].
  apply (scope_marker_balance person_scope); [apply person_scope_balanced|by vm_compute].
Defined.

(** C2, on the code.  Inside the open scope of
    [<div itemscope itemtype="Offer">], the start tag [<p>] pushes no marker
    (the reader is left as it was, with the marker [true] of the scope on
    top); the end tag [</p>] then pops that marker and with it the scope, and
    the [itemprop] that follows finds no scope: the finished scope has no
    properties. *)
Theorem plain_element_pops_enclosing_scope :
  let r1 := SchemaReader.mk [ItemScope.mk "div" "Offer" "" [] []] [0] [0] [true] false false in
  let r2 := SchemaReader.mk [ItemScope.mk "div" "Offer" "" [] []] [0] [] [] false false in
  run SchemaReader.reader (take 1 plain_element_in_scope) SchemaReader.new = OK r1
  ∧ feed SchemaReader.reader (start_tag "p" []) r1 = OK r1
  ∧ feed SchemaReader.reader (EndTagToken "p") r1 = OK r2
  ∧ run SchemaReader.reader plain_element_in_scope SchemaReader.new = OK r2.
Proof. by vm_compute. Qed.

(** C9, on the code.  A scope opened inside a property leaves [insideProp]
    set while the current scope has no property yet: the text that follows
    runs into [log.Fatalln]. *)
Theorem scope_in_property_is_fatal :
  run SchemaReader.reader (take 3 scope_in_property) SchemaReader.new
  = OK (SchemaReader.mk
          [ ItemScope.mk "div" "" "" [ItemProp.mk "span" "author" "" "" ""] [1];
            ItemScope.mk "span" "Person" "" [] [] ]
          [0] [0; 1] [true; false; true] true false)
  ∧ run SchemaReader.reader scope_in_property SchemaReader.new
    = Fatal "No prop to set content from text node".
Proof. by vm_compute. Qed.

(** The other abort of C9 is out of reach: the MetaReader completes every
    stream, so [makeCurrentExtra] never finds the list empty. *)
Lemma MetaReader_never_aborts toks r :
  (∀ msg, run MetaReader.reader toks r ≠ Fatal msg)
  ∧ run MetaReader.reader toks r ≠ Panic.
Proof.
  destruct (MetaReader_run_returns toks r) as [r' ->]. by split.
Qed.

(** ** The MetaReader: content *)

(** A text event leaves a Meta with content alone. *)
Lemma MetaReader_HandleText_keeps text r p :
  Meta.Content (MetaReader.load r p) ≠ "" →
  Meta.Content (MetaReader.load (MetaReader.HandleText text r) p)
  = Meta.Content (MetaReader.load r p).
Proof.
  intros Hp. unfold MetaReader.HandleText.
  destruct (MetaReader.inside r && MetaReader.inHead r); [|done].
  destruct (MetaReader.current r) as [c|]; [|done].
  case_decide as Hc; [|done].
  unfold MetaReader.load, MetaReader.store in *. simpl.
  rewrite list_lookup_total_alter.
  destruct (decide _) as [[-> ?]|?]; [|done]. by rewrite Hc in Hp.
Qed.

(** A text event reaches the last top-level Meta only. *)
Lemma MetaReader_HandleText_others text r p :
  MetaReader.current r ≠ Some p →
  MetaReader.load (MetaReader.HandleText text r) p = MetaReader.load r p.
Proof.
  intros Hp. unfold MetaReader.HandleText.
  destruct (MetaReader.inside r && MetaReader.inHead r); [|done].
  destruct (MetaReader.current r) as [c|]; [|done].
  case_decide as Hc; [|done].
  unfold MetaReader.load, MetaReader.store in *. simpl.
  rewrite list_lookup_total_alter_ne; [done|]. congruence.
Qed.

(** A start tag leaves the content of the Metas allocated before alone. *)
Lemma MetaReader_HandleStart_keeps tn attrs r r' p :
  MetaReader.HandleStart tn attrs r = OK r' →
  p < length (MetaReader.heap r) →
  Meta.Content (MetaReader.load r' p) = Meta.Content (MetaReader.load r p)
  ∧ p < length (MetaReader.heap r').
Proof.
  intros Hr Hp. destruct (decide (tn = "meta")) as [->|Hmeta].
  - destruct (MetaReader.inHead r) eqn:Hhd.
    + rewrite MetaReader_HandleStart_meta in Hr by done. simpl in Hr.
      unfold MetaReader.load.
      assert (∀ ins hd it, r' = MetaReader.mk (MetaReader.heap r ++ [meta_of attrs]) it ins hd →
                Meta.Content (MetaReader.heap r' !!! p)
                = Meta.Content (MetaReader.heap r !!! p)
                ∧ p < length (MetaReader.heap r')) as Hplain.
      { intros ins hd it ->. simpl. rewrite lookup_total_app_l, length_app by done.
        simpl. split; [done|lia]. }
      destruct (MetaReader.current r) as [c|]; [|injection Hr as <-; by eapply Hplain].
      destruct (String.prefix _ _); [|injection Hr as <-; by eapply Hplain].
      injection Hr as <-. simpl.
      rewrite length_alter, length_app. simpl. split; [|lia].
      rewrite list_lookup_total_alter.
      destruct (decide _) as [[-> ?]|?]; simpl; by rewrite lookup_total_app_l.
    + unfold MetaReader.HandleStart in Hr. rewrite Hhd in Hr. simpl in Hr.
      by injection Hr as <-.
  - unfold MetaReader.HandleStart in Hr.
    destruct (decide (tn = "head")); [by injection Hr as <-|].
    destruct (decide (tn = "meta")); [done|]. by injection Hr as <-.
Qed.

Lemma MetaReader_feed_keeps tok r r' p :
  feed MetaReader.reader tok r = OK r' →
  p < length (MetaReader.heap r) →
  Meta.Content (MetaReader.load r p) ≠ "" →
  Meta.Content (MetaReader.load r' p) = Meta.Content (MetaReader.load r p)
  ∧ p < length (MetaReader.heap r').
Proof.
  assert (∀ tn r, MetaReader.load (MetaReader.HandleEnd tn r) p = MetaReader.load r p
                  ∧ MetaReader.heap (MetaReader.HandleEnd tn r) = MetaReader.heap r) as Hend.
  { intros tn r0. unfold MetaReader.HandleEnd. by repeat case_decide. }
  intros Hr Hp Hc.
  destruct tok as [text|tn ha z|tn|tn ha z|text|text]; simpl in Hr.
  - injection Hr as <-. split; [by apply MetaReader_HandleText_keeps|].
    by destruct (MetaReader_HandleText_shape text r) as [_ ->].
  - by eapply MetaReader_HandleStart_keeps.
  - injection Hr as <-. destruct (Hend tn r) as [-> ->]. done.
  - apply bind_OK in Hr as (r1 & H1 & [= <-]).
    destruct (Hend tn r1) as [-> ->]. by eapply MetaReader_HandleStart_keeps.
  - by injection Hr as <-.
  - by injection Hr as <-.
Qed.

(** Once a Meta has content, no later event changes it. *)
Lemma MetaReader_run_keeps toks r r' p :
  run MetaReader.reader toks r = OK r' →
  p < length (MetaReader.heap r) →
  Meta.Content (MetaReader.load r p) ≠ "" →
  Meta.Content (MetaReader.load r' p) = Meta.Content (MetaReader.load r p).
Proof.
  revert r. induction toks as [|tok toks IH]; intros r; simpl.
  - by intros [= <-].
  - intros (r1 & H1 & H2)%bind_OK Hp Hc.
    destruct (MetaReader_feed_keeps tok r r1 p H1 Hp Hc) as [Heq Hp1].
    rewrite <-Heq. apply IH; [done..|]. by rewrite Heq.
Qed.

(** The Meta a [meta] start tag allocates carries the attributes. *)
Lemma MetaReader_HandleStart_new attrs r r' :
  MetaReader.inHead r = true →
  MetaReader.HandleStart "meta" attrs r = OK r' →
  Meta.Content (MetaReader.load r' (length (MetaReader.heap r))) = index attrs "content"
  ∧ length (MetaReader.heap r) < length (MetaReader.heap r').
Proof.
  intros Hhd. rewrite MetaReader_HandleStart_meta by done. simpl.
  unfold MetaReader.load.
  assert (∀ ins hd it, r' = MetaReader.mk (MetaReader.heap r ++ [meta_of attrs]) it ins hd →
            Meta.Content (MetaReader.heap r' !!! length (MetaReader.heap r))
            = index attrs "content"
            ∧ length (MetaReader.heap r) < length (MetaReader.heap r')) as Hplain.
  { intros ins hd it ->. simpl. rewrite list_lookup_total_middle, length_app by done.
    simpl. split; [done|lia]. }
  destruct (MetaReader.current r) as [c|]; [|intros [= <-]; by eapply Hplain].
  destruct (String.prefix _ _); [|intros [= <-]; by eapply Hplain].
  intros [= <-]. simpl. rewrite length_alter, length_app. simpl. split; [|lia].
  rewrite list_lookup_total_alter.
  destruct (decide _) as [[-> ?]|?]; simpl; by rewrite list_lookup_total_middle.
Qed.

(** C6, on the code.  After a fold [current] is the Meta folded into, not the
    Meta just folded: the text of [<meta property="og:image:alt">A rock</meta>]
    becomes the content of the preceding [og:image] when that has none, and is
    dropped when it has; the folded Meta (pointer 1) keeps its empty content
    in both cases. *)
Theorem text_after_fold_misses_folded_meta :
  run MetaReader.reader folded_meta_with_text MetaReader.new
  = OK (MetaReader.mk
          [ Meta.mk "og:image" "A rock" "" [1];
            Meta.mk "og:image:alt" "" "" [] ]
          [0] false false)
  ∧ run MetaReader.reader folded_meta_with_text' MetaReader.new
    = OK (MetaReader.mk
            [ Meta.mk "og:image" "rock.jpg" "" [1];
              Meta.mk "og:image:alt" "" "" [] ]
            [0] false false).
Proof. by vm_compute. Qed.

(** The same in general: whenever a [meta] start tag is folded, no text event
    that follows it reaches the folded Meta. *)
Lemma MetaReader_text_misses_folded attrs text r r' c :
  MetaReader.inHead r = true →
  MetaReader.current r = Some c → c < length (MetaReader.heap r) →
  String.prefix (Meta.Property (MetaReader.load r c) +:+ ":") (index attrs "property") = true →
  MetaReader.HandleStart "meta" attrs r = OK r' →
  MetaReader.current r' = Some c
  ∧ MetaReader.load (MetaReader.HandleText text r') (length (MetaReader.heap r))
    = meta_of attrs.
Proof.
  intros Hhd Hcur Hc Hpre. rewrite MetaReader_HandleStart_meta by done. simpl.
  rewrite Hcur. unfold MetaReader.load in Hpre.
  rewrite lookup_total_app_l, Hpre by done. intros [= <-].
  split; [done|].
  rewrite MetaReader_HandleText_others.
  - unfold MetaReader.load. simpl.
    rewrite list_lookup_total_alter_ne by lia.
    by rewrite list_lookup_total_middle.
  - unfold MetaReader.current in *. simpl. rewrite Hcur. intros [= ->]. lia.
Qed.

(** ** The SchemaReader: properties and their content *)

(** The start tag of an [itemprop] element inside a scope appends the
    ItemProp read from the attributes and sets [insideProp]. *)
Lemma SchemaReader_HandleStart_itemprop tn attrs itemprop r s :
  SchemaReader.inHead r = false → tn ≠ "head" →
  SchemaReader.current r = Some s → s < length (SchemaReader.heap r) →
  attrs !! "itemscope" = None → attrs !! "itemprop" = Some itemprop →
  let r' := SchemaReader.HandleStart tn attrs r in
  SchemaReader.insideProp r' = true
  ∧ SchemaReader.current r' = Some s
  ∧ length (SchemaReader.heap r') = length (SchemaReader.heap r)
  ∧ ItemScope.Props (SchemaReader.load r' s)
    = ItemScope.Props (SchemaReader.load r s)
      ++ [ItemProp.mk tn itemprop (index attrs "content") (index attrs "href")
            (index attrs "datetime")].
Proof.
  destruct r as [h it st bc ip hd]. simpl. intros -> Htn Hcur Hs Hscope Hprop.
  unfold SchemaReader.HandleStart. rewrite decide_False by done. simpl.
  rewrite bool_decide_eq_false_2
    by (apply map_size_ne_0_lookup; by exists "itemprop").
  rewrite bool_decide_eq_false_2 by (rewrite Hscope; by intros [? ?]).
  rewrite Hcur, Hprop. simpl.
  unfold SchemaReader.current, SchemaReader.load in *. simpl in *.
  rewrite length_alter, list_lookup_total_alter_eq by done. done.
Qed.

(** A text event inside a property replaces the content of the last
    ItemProp of the current scope, whatever that ItemProp holds. *)
Lemma SchemaReader_HandleText_overwrites text r s ps q :
  SchemaReader.insideProp r = true →
  SchemaReader.current r = Some s → s < length (SchemaReader.heap r) →
  ItemScope.Props (SchemaReader.load r s) = ps ++ [q] →
  ∃ r', SchemaReader.HandleText text r = OK r'
    ∧ ItemScope.Props (SchemaReader.load r' s)
      = ps ++ [ItemProp.set_Content (string_of_bytes text) q].
Proof.
  intros Hip Hcur Hs Hps. unfold SchemaReader.HandleText.
  rewrite Hip, Hcur, Hps, length_app. simpl.
  rewrite decide_False by lia.
  eexists. split; [done|].
  unfold SchemaReader.load, SchemaReader.store in *. simpl.
  rewrite list_lookup_total_alter_eq by done. simpl. rewrite Hps.
  replace (length ps + 1 - 1) with (length ps) by lia.
  by rewrite alter_snoc.
Qed.

(** C4. Attribute precedence.  The Meta a [meta] start tag in the head
    creates with a non-empty [content] attribute keeps that content through
    every stream of later events, text included.  An ItemProp is the other
    way round: a text event inside a property replaces the content of the
    last ItemProp of the current scope, whatever content, href or datetime it
    holds. *)
Theorem attribute_precedence
    (attrs : gmap string string) (mr : MetaReader.t) (toks : list Token)
    (text : bytes) (sr : SchemaReader.t) (s : ptr) (ps : list ItemProp.t) (q : ItemProp.t) :
  MetaReader.inHead mr = true →
  index attrs "content" ≠ "" →
  SchemaReader.insideProp sr = true →
  SchemaReader.current sr = Some s → s < length (SchemaReader.heap sr) →
  ItemScope.Props (SchemaReader.load sr s) = ps ++ [q] →
  (∃ mr1 mr2,
     MetaReader.HandleStart "meta" attrs mr = OK mr1
     ∧ run MetaReader.reader toks mr1 = OK mr2
     ∧ Meta.Content (MetaReader.load mr2 (length (MetaReader.heap mr)))
       = index attrs "content")
  ∧ (∃ sr',
       SchemaReader.HandleText text sr = OK sr'
       ∧ ItemScope.Props (SchemaReader.load sr' s)
         = ps ++ [ItemProp.mk (ItemProp.TagName q) (ItemProp.ItemProp q)
                    (string_of_bytes text) (ItemProp.HREF q) (ItemProp.DateTime q)]).
Proof.
  intros Hhd Hcontent Hip Hcur Hs Hps. split.
  - destruct (MetaReader_HandleStart_returns "meta" attrs mr) as [mr1 H1].
    destruct (MetaReader_run_returns toks mr1) as [mr2 H2].
    exists mr1, mr2. split_and!; [done..|].
    destruct (MetaReader_HandleStart_new attrs mr mr1 Hhd H1) as [Hnew Hlt].
    rewrite <-Hnew. apply (MetaReader_run_keeps toks); [done..|].
    by rewrite Hnew.
  - by apply SchemaReader_HandleText_overwrites.
Qed.

(** C5 (as amended). The text following the start tag of an [itemprop]
    element inside a scope becomes the content of its ItemProp whether or not
    the tag gave a [content], [href] or [datetime]; href and datetime stay. *)
Theorem text_overwrites_itemprop_content
    (tn : string) (attrs : gmap string string) (itemprop : string) (text : bytes)
    (r : SchemaReader.t) (s : ptr) :
  SchemaReader.inHead r = false → tn ≠ "head" →
  SchemaReader.current r = Some s → s < length (SchemaReader.heap r) →
  attrs !! "itemscope" = None → attrs !! "itemprop" = Some itemprop →
  ∃ r', SchemaReader.HandleText text (SchemaReader.HandleStart tn attrs r) = OK r'
    ∧ ItemScope.Props (SchemaReader.load r' s)
      = ItemScope.Props (SchemaReader.load r s)
        ++ [ItemProp.mk tn itemprop (string_of_bytes text) (index attrs "href")
              (index attrs "datetime")].
Proof.
  intros Hhd Htn Hcur Hs Hscope Hprop.
  destruct (SchemaReader_HandleStart_itemprop tn attrs itemprop r s
              Hhd Htn Hcur Hs Hscope Hprop) as (Hip & Hcur' & Hlen & Hps).
  rewrite <-Hlen in Hs.
  destruct (SchemaReader_HandleText_overwrites text _ s _ _ Hip Hcur' Hs Hps)
    as (r' & H1 & H2).
  exists r'. split; [done|]. by rewrite H2.
Qed.

Lemma attribute_precedence_witness :
  MetaReader.inHead in_head = true
  ∧ index title_attrs "content" ≠ ""
  ∧ SchemaReader.insideProp in_link = true
  ∧ SchemaReader.current in_link = Some 0
  ∧ 0 < length (SchemaReader.heap in_link)
  ∧ ItemScope.Props (SchemaReader.load in_link 0)
    = [] ++ [ItemProp.mk "a" "url" "" "alice.html" ""]
  ∧ ((∃ mr1 mr2,
        MetaReader.HandleStart "meta" title_attrs in_head = OK mr1
        ∧ run MetaReader.reader
            [TextToken (bytes_of "special"); EndTagToken "meta"] mr1 = OK mr2
        ∧ Meta.Content (MetaReader.load mr2 (length (MetaReader.heap in_head)))
          = index title_attrs "content")
     ∧ (∃ sr',
          SchemaReader.HandleText (bytes_of "Alice Jones") in_link = OK sr'
          ∧ ItemScope.Props (SchemaReader.load sr' 0)
            = [] ++ [ItemProp.mk "a" "url" (string_of_bytes (bytes_of "Alice Jones"))
                       "alice.html" ""])).
Proof.
  assert (index title_attrs "content" ≠ "") as Hcontent by by vm_compute.
  do 6 (split; [first [done|simpl; lia]|]).
  apply (attribute_precedence title_attrs in_head
           [TextToken (bytes_of "special"); EndTagToken "meta"]
           (bytes_of "Alice Jones") in_link 0 []
           (ItemProp.mk "a" "url" "" "alice.html" ""));
    [done|done|done|done|simpl; lia|done].
Defined.

(** C5 (as stated) fails on the test page of the repository: the text of
    [<a href="alice.html" itemprop="url">Alice Jones</a>] becomes the content
    of the ItemProp although the tag gave it an [href]. *)
Lemma text_fills_props_with_href : ¬ text_fills_only_bare_props.
Proof.
  intros H.
  assert (index link_attrs "href" ≠ "") as Hhref by by vm_compute.
  apply Hhref.
  apply (H "a" link_attrs "url" (bytes_of "Alice Jones") in_person 0
           (SchemaReader.mk
              [ItemScope.mk "div" "Person" ""
                 [ItemProp.mk "a" "url" "Alice Jones" "alice.html" ""] []]
              [0] [0] [true; false] true false)).
  - done.
  - done.
  - done.
  - simpl. lia.
  - by vm_compute.
  - by vm_compute.
  - by vm_compute.
  - by vm_compute.
Qed.

Lemma text_overwrites_itemprop_content_witness :
  SchemaReader.inHead in_person = false
  ∧ "a" ≠ "head"
  ∧ SchemaReader.current in_person = Some 0
  ∧ 0 < length (SchemaReader.heap in_person)
  ∧ link_attrs !! "itemscope" = None
  ∧ link_attrs !! "itemprop" = Some "url"
  ∧ ∃ r', SchemaReader.HandleText (bytes_of "Alice Jones")
            (SchemaReader.HandleStart "a" link_attrs in_person) = OK r'
      ∧ ItemScope.Props (SchemaReader.load r' 0)
        = ItemScope.Props (SchemaReader.load in_person 0)
          ++ [ItemProp.mk "a" "url" (string_of_bytes (bytes_of "Alice Jones"))
                (index link_attrs "href") (index link_attrs "datetime")].
Proof.
  assert (link_attrs !! "itemscope" = None) as Hscope by by vm_compute.
  assert (link_attrs !! "itemprop" = Some "url") as Hprop by by vm_compute.
  do 6 (split; [first [done|simpl; lia]|]).
  apply (text_overwrites_itemprop_content "a" link_attrs "url"
           (bytes_of "Alice Jones") in_person 0);
    [done|done|done|simpl; lia|done|done].
Defined.

(** ** Text normalisation *)

Lemma is_lineFeed_whitespace a : is_lineFeed a = true → is_whitespace a = true.
Proof.
  unfold is_lineFeed, is_whitespace.
  rewrite !bool_decide_eq_true, !elem_of_cons.
  intros [->|[->|H]]; [by right; left|by do 3 right; left|by apply elem_of_nil in H].
Qed.

Lemma flat_from_weaken b s : flat_from b s = true → flat_from false s = true.
Proof.
  destruct s as [|a s]; simpl; [done|].
  destruct (is_whitespace a); [|done].
  rewrite !andb_true_iff. by intros [[H1 _] H2].
Qed.

Lemma flat_from_suffix b pre s : flat_from b (pre ++ s) = true → flat_from false s = true.
Proof.
  revert b. induction pre as [|a pre IH]; intros b; simpl.
  - apply flat_from_weaken.
  - destruct (is_whitespace a); [|apply IH].
    rewrite !andb_true_iff. intros [_ H]. by eapply IH.
Qed.

Lemma flat_from_prefix b s post : flat_from b (s ++ post) = true → flat_from b s = true.
Proof.
  revert b. induction s as [|a s IH]; intros b; simpl; [done|].
  destruct (is_whitespace a); [|apply IH].
  rewrite !andb_true_iff. intros [H1 H2]. split; [done|]. by apply IH.
Qed.

(** Replacing the runs of white space by single spaces makes a text flat. *)
Lemma ReplaceAll_whitespace_flat b s :
  flat_from b (ReplaceAll_from is_whitespace [byte_of 32] b s) = true.
Proof.
  revert b. induction s as [|a s IH]; intros b; simpl; [done|].
  destruct (is_whitespace a) eqn:Ha.
  - destruct b; [apply IH|]. simpl. by rewrite IH.
  - simpl. by rewrite Ha.
Qed.

(** On a flat text both replacements find every run already replaced. *)
Lemma ReplaceAll_whitespace_fixed b s :
  flat_from b s = true → ReplaceAll_from is_whitespace [byte_of 32] b s = s.
Proof.
  revert b. induction s as [|a s IH]; intros b; simpl; [done|].
  destruct (is_whitespace a).
  - rewrite !andb_true_iff, bool_decide_eq_true, negb_true_iff.
    intros [[-> ->] H]. simpl. by rewrite IH.
  - intros H. by rewrite IH.
Qed.

Lemma ReplaceAll_lineFeed_fixed b b' s :
  flat_from b s = true → ReplaceAll_from is_lineFeed [byte_of 10] b' s = s.
Proof.
  revert b b'. induction s as [|a s IH]; intros b b'; simpl; [done|].
  destruct (is_whitespace a) eqn:Ha.
  - rewrite !andb_true_iff, bool_decide_eq_true.
    intros [[-> _] H]. simpl. by rewrite (IH true).
  - intros H. destruct (is_lineFeed a) eqn:Hlf.
    + apply is_lineFeed_whitespace in Hlf. congruence.
    + by rewrite (IH false).
Qed.

Section trimming.
(** The byte sequences to trim, none of them empty. *)
Variable runes : list bytes.
Hypothesis runes_nonempty : Forall (λ e, e ≠ []) runes.

Lemma strip_Some e s s' : strip e s = Some s' → s = e ++ s'.
Proof.
  revert s. induction e as [|x e IH]; intros [|y s]; simpl; try done.
  - by intros [= ->].
  - by intros [= ->].
  - case_decide; [|done]. subst. intros H. by rewrite (IH _ H).
Qed.

Lemma strip_app e s s' w : strip e s = Some s' → strip e (s ++ w) = Some (s' ++ w).
Proof.
  revert s. induction e as [|x e IH]; intros [|y s]; simpl; try done.
  - by intros [= <-].
  - by intros [= <-].
  - case_decide; [|done]. apply IH.
Qed.

Lemma strip_any_shorter s s' : strip_any runes s = Some s' → length s' < length s.
Proof.
  revert runes_nonempty. induction runes as [|e rs IH]; intros Hne; simpl; [done|].
  apply Forall_cons in Hne as [He Hrs].
  destruct (strip e s) as [t|] eqn:Hs; [|by apply IH].
  intros [= ->]. apply strip_Some in Hs as ->. rewrite length_app.
  destruct e; [done|]. simpl. lia.
Qed.

Lemma strip_any_suffix s s' : strip_any runes s = Some s' → ∃ e, s = e ++ s'.
Proof.
  clear runes_nonempty. induction runes as [|e rs IH]; simpl; [done|].
  destruct (strip e s) as [t|] eqn:Hs; [|exact IH].
  intros [= ->]. exists e. by apply strip_Some.
Qed.

(** A text that starts with none of the runes has no prefix that does. *)
Lemma strip_any_app_None s w : strip_any runes (s ++ w) = None → strip_any runes s = None.
Proof.
  clear runes_nonempty. induction runes as [|e rs IH]; simpl; [done|].
  destruct (strip e s) as [t|] eqn:Hs.
  - by rewrite (strip_app _ _ _ w Hs).
  - destruct (strip e (s ++ w)); [done|exact IH].
Qed.

Lemma trim_left_suffix n s : ∃ pre, s = pre ++ trim_left runes n s.
Proof.
  revert s. induction n as [|n IH]; intros s; simpl; [by exists []|].
  destruct (strip_any runes s) as [s'|] eqn:Hs; [|by exists []].
  destruct (strip_any_suffix _ _ Hs) as [e ->].
  destruct (IH s') as [pre Hpre]. exists (e ++ pre).
  by rewrite <-app_assoc, <-Hpre.
Qed.

Lemma trim_left_done n s :
  (length s ≤ n)%nat → strip_any runes (trim_left runes n s) = None.
Proof.
  revert s. induction n as [|n IH]; intros s Hn; simpl.
  - destruct s; [|simpl in Hn; lia].
    destruct (strip_any runes []) as [s'|] eqn:Hs; [|done].
    apply strip_any_shorter in Hs. simpl in Hs. lia.
  - destruct (strip_any runes s) as [s'|] eqn:Hs; [|done].
    apply IH. apply strip_any_shorter in Hs. lia.
Qed.

Lemma trim_left_fixed n s : strip_any runes s = None → trim_left runes n s = s.
Proof. intros Hs. destruct n; simpl; [done|]. by rewrite Hs. Qed.
End trimming.

Lemma space_runes_nonempty : Forall (λ e, e ≠ []) space_runes.
Proof. unfold space_runes. simpl. repeat constructor; done. Qed.

Lemma reverse_space_runes_nonempty : Forall (λ e, e ≠ []) (map reverse space_runes).
Proof. unfold space_runes. simpl. repeat constructor; done. Qed.

Lemma TrimLeft_suffix s : ∃ pre, s = pre ++ TrimLeft s.
Proof. apply trim_left_suffix. Qed.

Lemma TrimRight_prefix s : ∃ post, s = TrimRight s ++ post.
Proof.
  destruct (trim_left_suffix (map reverse space_runes) (length s) (reverse s))
    as [pre Hpre].
  exists (reverse pre). unfold TrimRight.
  by rewrite <-reverse_app, <-Hpre, reverse_involutive.
Qed.

(** Trimming a trimmed text changes nothing. *)
Lemma TrimSpace_fixed s :
  TrimRight (TrimLeft (TrimRight (TrimLeft s))) = TrimRight (TrimLeft s).
Proof.
  set (y := TrimLeft s). set (z := TrimRight y).
  assert (TrimLeft z = z) as ->.
  { apply trim_left_fixed.
    destruct (TrimRight_prefix y) as [post Hpost]. fold z in Hpost.
    apply (strip_any_app_None _ z post). rewrite <-Hpost.
    by apply trim_left_done; [apply space_runes_nonempty|]. }
  unfold TrimRight at 1.
  rewrite trim_left_fixed; [apply reverse_involutive|].
  unfold z, TrimRight. rewrite reverse_involutive.
  apply trim_left_done; [apply reverse_space_runes_nonempty|].
  by rewrite length_reverse.
Qed.

Lemma normalize_normalize_bytes text :
  normalize text = string_of_bytes (normalize_bytes text).
Proof.
  unfold normalize, normalize_bytes, TrimSpace, string_of_bytes.
  by rewrite list_ascii_of_string_of_list_ascii.
Qed.

Lemma normalize_bytes_flat text : flat_from false (normalize_bytes text) = true.
Proof.
  unfold normalize_bytes.
  set (w := ReplaceAll is_whitespace _ _).
  assert (flat_from false w = true) as Hw by apply ReplaceAll_whitespace_flat.
  destruct (TrimLeft_suffix w) as [pre Hpre].
  destruct (TrimRight_prefix (TrimLeft w)) as [post Hpost].
  rewrite Hpre in Hw. apply flat_from_suffix in Hw.
  rewrite Hpost in Hw. by apply flat_from_prefix in Hw.
Qed.

Lemma normalize_bytes_idempotent text :
  normalize_bytes (normalize_bytes text) = normalize_bytes text.
Proof.
  pose proof (normalize_bytes_flat text) as Hflat.
  unfold normalize_bytes at 1. unfold ReplaceAll.
  rewrite (ReplaceAll_lineFeed_fixed false) by done.
  rewrite ReplaceAll_whitespace_fixed by done.
  apply TrimSpace_fixed.
Qed.

(** C7. The normalisation of [PageReader.Done] is idempotent: normalising the
    bytes of a normalised text gives that text again. *)
Theorem normalize_idempotent (text : bytes) :
  normalize (bytes_of (normalize text)) = normalize text.
Proof.
  rewrite !normalize_normalize_bytes. unfold bytes_of, string_of_bytes.
  by rewrite list_ascii_of_string_of_list_ascii, normalize_bytes_idempotent.
Qed.

(** ** The Page: the readers side by side *)

Lemma Page_HandleStart tn attrs p :
  TokenReader.HandleStart Page.Readers tn attrs p
  = m ← MetaReader.HandleStart tn attrs (Page.MetaReader p);
    OK (Page.mk (Page.URL p) (Page.HTML p) (Page.Text p) (Page.Title p) m
          (SchemaReader.HandleStart tn attrs (Page.SchemaReader p))
          (PageReader.HandleStart tn (Page.PageReader p))).
Proof. simpl. by destruct (MetaReader.HandleStart tn attrs _). Qed.

Lemma Page_HandleEnd tn p :
  TokenReader.HandleEnd Page.Readers tn p
  = s ← SchemaReader.HandleEnd tn (Page.SchemaReader p);
    OK (Page.mk (Page.URL p) (Page.HTML p) (Page.Text p) (Page.Title p)
          (MetaReader.HandleEnd tn (Page.MetaReader p)) s
          (PageReader.HandleEnd tn (Page.PageReader p))).
Proof. simpl. by destruct (SchemaReader.HandleEnd tn _). Qed.

Lemma Page_HandleText text p :
  TokenReader.HandleText Page.Readers text p
  = s ← SchemaReader.HandleText text (Page.SchemaReader p);
    OK (Page.mk (Page.URL p) (Page.HTML p) (Page.Text p)
          (Page.Title (PageReader.HandleText Page.set_Title text (Page.PageReader p) p).2)
          (MetaReader.HandleText text (Page.MetaReader p)) s
          (PageReader.HandleText Page.set_Title text (Page.PageReader p) p).1).
Proof.
  simpl. unfold PageReader.HandleText.
  destruct (PageReader.inTitle _); simpl.
  - by destruct (SchemaReader.HandleText text _).
  - destruct (_ && _); simpl; by destruct (SchemaReader.HandleText text _).
Qed.

Lemma Page_Done p : TokenReader.Done Page.Readers p = OK (finalized p).
Proof. done. Qed.

Opaque Page.Readers.

(** Each reader sees the stream as if it were alone. *)
Lemma Page_feed_readers tok p p' :
  feed Page.Readers tok p = OK p' →
  feed MetaReader.reader tok (Page.MetaReader p) = OK (Page.MetaReader p')
  ∧ feed SchemaReader.reader tok (Page.SchemaReader p) = OK (Page.SchemaReader p').
Proof.
  destruct tok as [text|tn ha z|tn|tn ha z|text|text]; simpl.
  - rewrite Page_HandleText. intros (s & -> & [= <-])%bind_OK. done.
  - rewrite Page_HandleStart. intros (m & -> & [= <-])%bind_OK. done.
  - rewrite Page_HandleEnd. intros (s & -> & [= <-])%bind_OK. done.
  - rewrite Page_HandleStart. intros (p1 & (m & -> & [= <-])%bind_OK & H)%bind_OK.
    rewrite Page_HandleEnd in H. simpl in H.
    apply bind_OK in H as (s & -> & [= <-]). done.
  - by intros [= <-].
  - by intros [= <-].
Qed.

Lemma Page_run_readers toks p p' :
  run Page.Readers toks p = OK p' →
  run MetaReader.reader toks (Page.MetaReader p) = OK (Page.MetaReader p')
  ∧ run SchemaReader.reader toks (Page.SchemaReader p) = OK (Page.SchemaReader p').
Proof.
  revert p. induction toks as [|tok toks IH]; intros p; simpl.
  - by intros [= <-].
  - intros (p1 & [-> ->]%Page_feed_readers & H2)%bind_OK. simpl. by apply IH.
Qed.

(** The loop goes on as long as the SchemaReader does. *)
Lemma Page_feed_returns tok p s :
  feed SchemaReader.reader tok (Page.SchemaReader p) = OK s →
  ∃ p', feed Page.Readers tok p = OK p'.
Proof.
  destruct tok as [text|tn ha z|tn|tn ha z|text|text]; simpl.
  - rewrite Page_HandleText. intros ->. by eexists.
  - rewrite Page_HandleStart. intros _.
    destruct (MetaReader_HandleStart_returns tn (AttrMap ha z) (Page.MetaReader p))
      as [m ->]. by eexists.
  - rewrite Page_HandleEnd. intros ->. by eexists.
  - rewrite Page_HandleStart. intros H.
    destruct (MetaReader_HandleStart_returns tn (AttrMap ha z) (Page.MetaReader p))
      as [m ->]. simpl. rewrite Page_HandleEnd. simpl. rewrite H. by eexists.
  - by eexists.
  - by eexists.
Qed.

Lemma Page_run_returns toks p s :
  run SchemaReader.reader toks (Page.SchemaReader p) = OK s →
  ∃ p', run Page.Readers toks p = OK p'.
Proof.
  revert p. induction toks as [|tok toks IH]; intros p; simpl; [by eexists|].
  intros (s1 & H1 & H2)%bind_OK.
  destruct (Page_feed_returns tok p s1 H1) as [p1 Hp1]. rewrite Hp1. simpl.
  apply IH. by destruct (Page_feed_readers tok p p1 Hp1) as [_ [= ->]%(eq_trans (eq_sym H1))].
Qed.

(** [Read] is the loop over the tokens followed by [Done] and the return of
    the error of the tokenizer. *)
Lemma Page_Read_loop toks zerr p :
  Page.Read_loop Page.Readers toks zerr p
  = p1 ← run Page.Readers toks p; OK (finalized p1, zerr).
Proof.
  revert p. induction toks as [|tok toks IH]; intros p; simpl.
  - by rewrite Page_Done.
  - destruct (feed Page.Readers tok p) as [p1| |]; simpl; [apply IH|done..].
Qed.

(** ** Read and Scrape *)

Section read_and_scrape.
Context {Response : Type}.
Variable http_Get : string → Response * error.
Variable ioutil_ReadAll : Response → bytes * error.
Variable tokenizer : bytes → list Token * error.

Lemma Page_Read text p :
  Page.Read tokenizer text p
  = p1 ← run Page.Readers (tokenizer text).1 p; OK (finalized p1, (tokenizer text).2).
Proof.
  unfold Page.Read. destruct (tokenizer text) as [toks zerr]. apply Page_Read_loop.
Qed.

Lemma Scrape_fetched url resp htmlBytes :
  http_Get url = (resp, nil) → ioutil_ReadAll resp = (htmlBytes, nil) →
  Scrape http_Get ioutil_ReadAll tokenizer url
  = '(p, err) ← Page.Read tokenizer htmlBytes (fresh_page url htmlBytes);
    if decide (err ≠ io_EOF) then OK (p, err) else OK (p, nil).
Proof. intros Hget Hall. unfold Scrape. by rewrite Hget, Hall. Qed.

(** C8. When the loop of [Read] has dispatched the events of the stream
    (leaving the page [p1]) and the tokenizer reports its error [zerr],
    [Done] runs on all readers and [Read] returns [zerr] itself.  [Scrape]
    then reports success ([nil]) if [zerr] is [io.EOF] and hands on [zerr]
    unchanged otherwise; in both cases it returns the page with the title,
    the metadata and the microdata collected so far, and with the
    normalised text collected so far. *)
Theorem Read_end_of_stream
    (url : string) (resp : Response) (htmlBytes : bytes)
    (toks : list Token) (zerr : error) (p1 : Page.t) :
  http_Get url = (resp, nil) →
  ioutil_ReadAll resp = (htmlBytes, nil) →
  tokenizer htmlBytes = (toks, zerr) →
  run Page.Readers toks (fresh_page url htmlBytes) = OK p1 →
  ∃ p2,
    TokenReader.Done Page.Readers p1 = OK p2
    ∧ Page.Read tokenizer htmlBytes (fresh_page url htmlBytes) = OK (p2, zerr)
    ∧ (zerr = io_EOF →
       Scrape http_Get ioutil_ReadAll tokenizer url = OK (p2, nil))
    ∧ (zerr ≠ io_EOF →
       Scrape http_Get ioutil_ReadAll tokenizer url = OK (p2, zerr))
    ∧ Page.Title p2 = Page.Title p1
    ∧ Page.Text p2 = normalize (PageReader.text (Page.PageReader p1))
    ∧ Page.MetaReader p2 = Page.MetaReader p1
    ∧ Page.SchemaReader p2 = Page.SchemaReader p1.
Proof.
  intros Hget Hall Htok Hrun. exists (finalized p1).
  assert (Page.Read tokenizer htmlBytes (fresh_page url htmlBytes)
          = OK (finalized p1, zerr)) as Hread.
  { rewrite Page_Read, Htok. simpl. by rewrite Hrun. }
  split_and!; try done.
  - intros ->. by rewrite (Scrape_fetched _ _ _ Hget Hall), Hread.
  - intros Hne. rewrite (Scrape_fetched _ _ _ Hget Hall), Hread. simpl.
    by case_decide.
Qed.

(** C10. [Read] never returns [nil].  Given that the tokenizer reports a
    non-nil error at its [ErrorToken]: whenever [Read] returns, it returns
    that error; it returns whenever the SchemaReader gets through the
    stream (its [log.Fatalln] is the only way the loop stops early), so on
    a fully consumed stream it returns [io.EOF]; and [Scrape], which tests
    against [io.EOF], reports success exactly then. *)
Theorem Read_never_returns_nil (text : bytes) (p : Page.t) :
  (tokenizer text).2 ≠ nil →
  (∀ p' err, Page.Read tokenizer text p = OK (p', err) →
     err = (tokenizer text).2 ∧ err ≠ nil)
  ∧ (∀ s, run SchemaReader.reader (tokenizer text).1 (Page.SchemaReader p) = OK s →
       ∃ p', Page.Read tokenizer text p = OK (p', (tokenizer text).2))
  ∧ (∀ url resp p' err,
       http_Get url = (resp, nil) → ioutil_ReadAll resp = (text, nil) →
       Scrape http_Get ioutil_ReadAll tokenizer url = OK (p', err) →
       (err = nil ↔ (tokenizer text).2 = io_EOF)).
Proof.
  intros Hzerr. split_and!.
  - intros p' err. rewrite Page_Read.
    intros (p1 & _ & [= _ <-])%bind_OK. done.
  - intros s Hs. rewrite Page_Read.
    destruct (Page_run_returns _ p s Hs) as [p1 ->]. by eexists.
  - intros url resp p' err Hget Hall.
    rewrite (Scrape_fetched _ _ _ Hget Hall), Page_Read.
    intros ([p2 e] & (p1 & _ & [= _ <-])%bind_OK & H)%bind_OK.
    case_decide as He; injection H as _ <-.
    + split; [done|]. intros Heof. by rewrite Heof in He.
    + split; [|done]. intros _. by destruct (decide ((tokenizer text).2 = io_EOF)).
Qed.
End read_and_scrape.

Lemma Read_end_of_stream_witness :
  sample_Get "http://example.com" = (tt, nil)
  ∧ sample_ReadAll tt = (sample_html, nil)
  ∧ failing_tokenizer sample_html
    = ([start_tag "title" []; TextToken (bytes_of "TestPage")], Err "unexpected error")
  ∧ run Page.Readers [start_tag "title" []; TextToken (bytes_of "TestPage")]
      (fresh_page "http://example.com" sample_html) = OK page_at_failure
  ∧ ∃ p2,
      TokenReader.Done Page.Readers page_at_failure = OK p2
      ∧ Page.Read failing_tokenizer sample_html
          (fresh_page "http://example.com" sample_html)
        = OK (p2, Err "unexpected error")
      ∧ (Err "unexpected error" = io_EOF →
         Scrape sample_Get sample_ReadAll failing_tokenizer "http://example.com"
         = OK (p2, nil))
      ∧ (Err "unexpected error" ≠ io_EOF →
         Scrape sample_Get sample_ReadAll failing_tokenizer "http://example.com"
         = OK (p2, Err "unexpected error"))
      ∧ Page.Title p2 = Page.Title page_at_failure
      ∧ Page.Text p2 = normalize (PageReader.text (Page.PageReader page_at_failure))
      ∧ Page.MetaReader p2 = Page.MetaReader page_at_failure
      ∧ Page.SchemaReader p2 = Page.SchemaReader page_at_failure.
Proof.
  assert (run Page.Readers [start_tag "title" []; TextToken (bytes_of "TestPage")]
            (fresh_page "http://example.com" sample_html) = OK page_at_failure)
    as Hrun by by vm_compute.
  do 4 (split; [done|]).
  by apply (Read_end_of_stream sample_Get sample_ReadAll failing_tokenizer
              "http://example.com" tt sample_html
              [start_tag "title" []; TextToken (bytes_of "TestPage")]
              (Err "unexpected error") page_at_failure).
Defined.

Lemma Read_never_returns_nil_witness :
  (sample_tokenizer sample_html).2 ≠ nil
  ∧ ((∀ p' err,
        Page.Read sample_tokenizer sample_html
          (fresh_page "http://example.com" sample_html) = OK (p', err) →
        err = (sample_tokenizer sample_html).2 ∧ err ≠ nil)
     ∧ (∀ s,
          run SchemaReader.reader (sample_tokenizer sample_html).1
            (Page.SchemaReader (fresh_page "http://example.com" sample_html)) = OK s →
          ∃ p', Page.Read sample_tokenizer sample_html
                  (fresh_page "http://example.com" sample_html)
                = OK (p', (sample_tokenizer sample_html).2))
     ∧ (∀ url resp p' err,
          sample_Get url = (resp, nil) → sample_ReadAll resp = (sample_html, nil) →
          Scrape sample_Get sample_ReadAll sample_tokenizer url = OK (p', err) →
          (err = nil ↔ (sample_tokenizer sample_html).2 = io_EOF))).
Proof.
  assert ((sample_tokenizer sample_html).2 ≠ nil) as Hzerr by done.
  split; [done|].
  by apply (Read_never_returns_nil sample_Get sample_ReadAll sample_tokenizer
              sample_html (fresh_page "http://example.com" sample_html)).
Defined.

(** ** The test of the package

    [TestPage] reads the test document and compares the title, the text, the
    metadata and the schema.org data with what it expects; the embedding
    gives the same.  The metadata are the Metas 0, 1, 2, 3, 6, 7, 9 and 10 of
    the store, the [Extra] of Meta 3 are Metas 4 and 5 and that of Meta 7 is
    Meta 8; the schema.org data are the scopes 0, 2, 3 and 4, scope 1 being
    the child of scope 0. *)
Example TestPage :
  ∃ p, Page.Read_loop Page.Readers testPage io_EOF
         (fresh_page "https://www.example.com" []) = OK (p, io_EOF)
    ∧ Page.Title p = "TestPage"
    ∧ Page.Text p
      = "Blend-O-Matic $19.95 Based on 25 user ratings Spinal Tap One of the loudest bands ever reunites for an unforgettable two-day show. Event date: May 8, 7:30pm Alice Jones Bob Smith"
    ∧ Page.MetaData p = [0; 1; 2; 3; 6; 7; 9; 10]
    ∧ MetaReader.heap (Page.MetaReader p)
      = [ Meta.mk "og:title" "The Rock" "" [];
          Meta.mk "og:type" "video.movie" "" [];
          Meta.mk "og:url" "http://www.imdb.com/title/tt0117500/" "" [];
          Meta.mk "og:image" "http://example.com/rock.jpg" "" [4; 5];
          Meta.mk "og:image:width" "300" "" [];
          Meta.mk "og:image:height" "300" "" [];
          Meta.mk "og:image" "http://example.com/rock2.jpg" "" [];
          Meta.mk "og:image" "http://example.com/rock3.jpg" "" [8];
          Meta.mk "og:image:height" "1000" "" [];
          Meta.mk "" "a,b,c" "keywords" [];
          Meta.mk "" "special" "unusual" [] ]
    ∧ Page.SchemaData p = [0; 2; 3; 4]
    ∧ SchemaReader.heap (Page.SchemaReader p)
      = [ ItemScope.mk "div" "http://schema.org/Offer" ""
            [ ItemProp.mk "span" "name" "Blend-O-Matic" "" "";
              ItemProp.mk "span" "price" "$19.95" "" "" ]
            [1];
          ItemScope.mk "div" "http://schema.org/AggregateRating" "reviews"
            [ ItemProp.mk "meta" "ratingValue" "4" "" "";
              ItemProp.mk "meta" "bestRating" "5" "" "";
              ItemProp.mk "span" "ratingCount" "25" "" "" ]
            [];
          ItemScope.mk "div" "http://schema.org/Event" ""
            [ ItemProp.mk "div" "name" "Spinal Tap" "" "";
              ItemProp.mk "span" "description"
                "One of the loudest bands ever reunites for an unforgettable two-day show."
                "" "";
              ItemProp.mk "time" "startDate" "May 8, 7:30pm" "" "2011-05-08T19:30" ]
            [];
          ItemScope.mk "div" "http://schema.org/Person" ""
            [ ItemProp.mk "a" "url" "Alice Jones" "alice.html" "" ] [];
          ItemScope.mk "div" "http://schema.org/Person" ""
            [ ItemProp.mk "a" "url" "Bob Smith" "bob.html" "" ] [] ].
Proof. eexists. split; [by vm_compute|]. by vm_compute. Qed.

(** * Further properties *)

(** ** AttrMap *)

Lemma AttrMap_loop_foldl z (attrs : gmap string string) :
  z ≠ [] →
  AttrMap_loop z attrs = foldl (λ m kv, <[kv.1 := kv.2]> m) attrs z.
Proof.
  revert attrs. induction z as [|[k v] z IH]; intros attrs Hz; [done|].
  simpl. destruct z as [|kv z]; [done|]. by apply IH.
Qed.

Lemma foldl_insert_list_to_map (z : list (string * string)) :
  foldl (λ m kv, <[kv.1 := kv.2]> m) (∅ : gmap string string) z
  = list_to_map (reverse z).
Proof.
  induction z as [|[k v] z IH] using rev_ind; [done|].
  by rewrite foldl_app, reverse_app, IH.
Qed.

Lemma AttrMap_list_to_map (z : list (string * string)) :
  z ≠ [] → AttrMap true z = list_to_map (reverse z).
Proof.
  intros Hz. unfold AttrMap. simpl.
  by rewrite AttrMap_loop_foldl, foldl_insert_list_to_map.
Qed.

(** X1. [AttrMap] on a tag with attributes: the map holds, for every
    attribute name, the value of its last occurrence ([list_to_map] keeps
    the first pair of a key, here of the reversed list). *)
Theorem AttrMap_last_wins (z : list (string * string)) :
  z ≠ [] → AttrMap true z = list_to_map (reverse z).
Proof. apply AttrMap_list_to_map. Qed.

Lemma AttrMap_last_wins_witness :
  [("content", "old"); ("name", "n"); ("content", "new")] ≠ []
  ∧ AttrMap true [("content", "old"); ("name", "n"); ("content", "new")]
    = list_to_map (reverse [("content", "old"); ("name", "n"); ("content", "new")]).
Proof.
  split; [done|].
  by apply (AttrMap_last_wins [("content", "old"); ("name", "n"); ("content", "new")]).
Defined.

(** X2. For a tag as the tokenizer reports it (the flag set exactly when
    there are attributes) the attribute map is empty, [len(attrs) == 0],
    exactly when the tag has no attributes. *)
Theorem AttrMap_empty_iff (z : list (string * string)) :
  size (AttrMap (bool_decide (z ≠ [])) z) = 0 ↔ z = [].
Proof.
  split.
  - intros Hsize. destruct (decide (z = [])) as [|Hz]; [done|].
    rewrite bool_decide_eq_true_2, AttrMap_list_to_map in Hsize by done.
    apply map_size_empty_inv in Hsize.
    destruct z as [|kv z _] using rev_ind; [done|].
    rewrite reverse_app in Hsize. destruct kv as [k v]. simpl in Hsize.
    by apply insert_non_empty in Hsize.
  - intros ->. done.
Qed.

(** ** The ReaderList *)

Lemma each_app {S : Type} (f : TokenReader.t S → S → outcome S)
    (l1 l2 : list (TokenReader.t S)) (s : S) :
  each f (l1 ++ l2) s = each f l1 s ≫= each f l2.
Proof.
  revert s. induction l1 as [|r l1 IH]; intros s; simpl; [done|].
  destruct (f r s) as [s'| |]; simpl; [apply IH|done..].
Qed.

Lemma bind_ret {A : Type} (m : outcome A) : m ≫= OK = m.
Proof. by destruct m. Qed.

Lemma each_nested {S : Type} (f : TokenReader.t S → S → outcome S)
    (l1 l2 : list (TokenReader.t S)) (s : S) :
  (each f l1 s ≫= λ s', each f l2 s' ≫= OK) = each f (l1 ++ l2) s.
Proof.
  rewrite each_app. destruct (each f l1 s) as [s1| |]; simpl; [|done..].
  apply bind_ret.
Qed.

Lemma feed_ReaderList_nested {S : Type} (l1 l2 : list (TokenReader.t S)) tok (s : S) :
  feed (ReaderList [ReaderList l1; ReaderList l2]) tok s
  = feed (ReaderList (l1 ++ l2)) tok s.
Proof.
  destruct tok as [text|tn ha z|tn|tn ha z|text|text]; simpl; try done.
  - apply each_nested.
  - apply each_nested.
  - apply each_nested.
  - rewrite each_nested.
    destruct (each _ (l1 ++ l2) s) as [s1| |]; simpl; [|done..].
    apply each_nested.
Qed.

(** X3. A ReaderList is itself a TokenReader, and nesting is transparent: a
    list of two ReaderLists handles every stream as the list of all their
    readers does, in the same order. *)
Theorem ReaderList_nested {S : Type} (l1 l2 : list (TokenReader.t S))
    (toks : list Token) (s : S) :
  run (ReaderList [ReaderList l1; ReaderList l2]) toks s
  = run (ReaderList (l1 ++ l2)) toks s
  ∧ TokenReader.Done (ReaderList [ReaderList l1; ReaderList l2]) s
    = TokenReader.Done (ReaderList (l1 ++ l2)) s.
Proof.
  split.
  - revert s. induction toks as [|tok toks IH]; intros s; simpl; [done|].
    rewrite feed_ReaderList_nested.
    destruct (feed _ tok s) as [s1| |]; simpl; [apply IH|done..].
  - simpl. apply each_nested.
Qed.

(** ** The readers of a Page *)

Lemma Page_feed_parts tok p p' :
  feed Page.Readers tok p = OK p' →
  feed pageReader_alone tok (Page.PageReader p, (Page.Title p, Page.Text p))
  = OK (Page.PageReader p', (Page.Title p', Page.Text p'))
  ∧ Page.URL p' = Page.URL p ∧ Page.HTML p' = Page.HTML p.
Proof.
  destruct tok as [text|tn ha z|tn|tn ha z|text|text]; simpl.
  - rewrite Page_HandleText. intros (s & _ & [= <-])%bind_OK. simpl.
    unfold PageReader.HandleText.
    destruct (PageReader.inTitle _); [done|]. by destruct (_ && _).
  - rewrite Page_HandleStart. by intros (m & _ & [= <-])%bind_OK.
  - rewrite Page_HandleEnd. by intros (s & _ & [= <-])%bind_OK.
  - rewrite Page_HandleStart. intros (p1 & (m & _ & [= <-])%bind_OK & H)%bind_OK.
    rewrite Page_HandleEnd in H. simpl in H.
    by apply bind_OK in H as (s & _ & [= <-]).
  - by intros [= <-].
  - by intros [= <-].
Qed.

Lemma Page_run_parts toks p p' :
  run Page.Readers toks p = OK p' →
  run pageReader_alone toks (Page.PageReader p, (Page.Title p, Page.Text p))
  = OK (Page.PageReader p', (Page.Title p', Page.Text p'))
  ∧ Page.URL p' = Page.URL p ∧ Page.HTML p' = Page.HTML p.
Proof.
  revert p. induction toks as [|tok toks IH]; intros p; simpl.
  - by intros [= <-].
  - intros (p1 & H1 & H2)%bind_OK.
    destruct (Page_feed_parts tok p p1 H1) as (-> & <- & <-). simpl.
    by apply IH.
Qed.

(** X4. In the loop of [Read] every reader sees the stream as if it were
    alone: the MetaReader, the SchemaReader and the PageReader (with the
    title it writes) end up exactly where their own runs lead, and the loop
    leaves [URL], [HTML] and [Text] of the page as they were. *)
Theorem Read_readers_independent (toks : list Token) (p p' : Page.t) :
  run Page.Readers toks p = OK p' →
  run MetaReader.reader toks (Page.MetaReader p) = OK (Page.MetaReader p')
  ∧ run SchemaReader.reader toks (Page.SchemaReader p) = OK (Page.SchemaReader p')
  ∧ run pageReader_alone toks (Page.PageReader p, (Page.Title p, Page.Text p))
    = OK (Page.PageReader p', (Page.Title p', Page.Text p'))
  ∧ Page.URL p' = Page.URL p
  ∧ Page.HTML p' = Page.HTML p.
Proof.
  intros Hrun.
  destruct (Page_run_readers toks p p' Hrun) as [Hmeta Hschema].
  destruct (Page_run_parts toks p p' Hrun) as (Hpage & Hurl & Hhtml).
  done.
Qed.

Lemma Read_readers_independent_witness :
  run Page.Readers [start_tag "title" []; TextToken (bytes_of "TestPage")]
    (fresh_page "http://example.com" sample_html) = OK page_at_failure
  ∧ (run MetaReader.reader [start_tag "title" []; TextToken (bytes_of "TestPage")]
       (Page.MetaReader (fresh_page "http://example.com" sample_html))
     = OK (Page.MetaReader page_at_failure)
     ∧ run SchemaReader.reader [start_tag "title" []; TextToken (bytes_of "TestPage")]
         (Page.SchemaReader (fresh_page "http://example.com" sample_html))
       = OK (Page.SchemaReader page_at_failure)
     ∧ run pageReader_alone [start_tag "title" []; TextToken (bytes_of "TestPage")]
         (Page.PageReader (fresh_page "http://example.com" sample_html),
          (Page.Title (fresh_page "http://example.com" sample_html),
           Page.Text (fresh_page "http://example.com" sample_html)))
       = OK (Page.PageReader page_at_failure,
             (Page.Title page_at_failure, Page.Text page_at_failure))
     ∧ Page.URL page_at_failure = Page.URL (fresh_page "http://example.com" sample_html)
     ∧ Page.HTML page_at_failure = Page.HTML (fresh_page "http://example.com" sample_html)).
Proof.
  assert (run Page.Readers [start_tag "title" []; TextToken (bytes_of "TestPage")]
            (fresh_page "http://example.com" sample_html) = OK page_at_failure)
    as Hrun by by vm_compute.
  split; [done|].
  by apply (Read_readers_independent
              [start_tag "title" []; TextToken (bytes_of "TestPage")]
              (fresh_page "http://example.com" sample_html) page_at_failure).
Defined.

(** ** The PageReader *)

Lemma pageReader_alone_feed tok s :
  ∃ s', feed pageReader_alone tok s = OK s'
    ∧ (PageReader.text s'.1 = PageReader.text s.1
       ∨ ∃ text, tok = TextToken text
           ∧ PageReader.inBody s.1 = true
           ∧ PageReader.text s'.1 = PageReader.text s.1 ++ text)
    ∧ (¬ opens "body" tok → PageReader.inBody s.1 = false →
       PageReader.inBody s'.1 = false).
Proof.
  assert (∀ tn r, PageReader.text (PageReader.HandleStart tn r) = PageReader.text r
                  ∧ (tn ≠ "body" → PageReader.inBody r = false →
                     PageReader.inBody (PageReader.HandleStart tn r) = false)) as Hstart.
  { intros tn r. unfold PageReader.HandleStart. by repeat case_decide. }
  assert (∀ tn r, PageReader.text (PageReader.HandleEnd tn r) = PageReader.text r
                  ∧ (PageReader.inBody r = false →
                     PageReader.inBody (PageReader.HandleEnd tn r) = false)) as Hend.
  { intros tn r. unfold PageReader.HandleEnd. by repeat case_decide. }
  destruct s as [r page].
  destruct tok as [text|tn ha z|tn|tn ha z|text|text].
  - eexists. split; [done|]. simpl. unfold PageReader.HandleText.
    destruct (PageReader.inTitle r); simpl; [by split; [left|]|].
    destruct (PageReader.inBody r) eqn:Hb; simpl; [|by split; [left|]].
    destruct (PageReader.inScript r); simpl; [by split; [left|]|].
    split; [|done]. right. by exists text.
  - exists (PageReader.HandleStart tn r, page). split; [done|].
    destruct (Hstart tn r) as [Ht H]. split; [left; exact Ht|].
    intros Hne. apply H. simpl in Hne. congruence.
  - exists (PageReader.HandleEnd tn r, page). split; [done|].
    destruct (Hend tn r) as [Ht H]. split; [left; exact Ht|]. intros _. exact H.
  - exists (PageReader.HandleEnd tn (PageReader.HandleStart tn r), page). split; [done|].
    destruct (Hstart tn r) as [Ht H].
    destruct (Hend tn (PageReader.HandleStart tn r)) as [Ht' H'].
    split; [left; exact (eq_trans Ht' Ht)|].
    intros Hne Hb. apply H', H; [|exact Hb]. simpl in Hne. congruence.
  - exists (r, page). by split; [|split; [left|]].
  - exists (r, page). by split; [|split; [left|]].
Qed.

Lemma pageReader_alone_no_body toks s s' :
  Forall (λ tok, ¬ opens "body" tok) toks →
  PageReader.inBody s.1 = false →
  run pageReader_alone toks s = OK s' →
  PageReader.text s'.1 = PageReader.text s.1.
Proof.
  intros Htoks. revert s. induction Htoks as [|tok toks Htok _ IH]; intros s Hb; simpl.
  - by intros [= <-].
  - destruct (pageReader_alone_feed tok s) as (s1 & -> & Htext & Hbody). simpl.
    intros Hrun. rewrite (IH s1) by auto.
    destruct Htext as [?|(text & _ & ? & _)]; [done|congruence].
Qed.

(** X5. Only text inside the body is collected: when no element named [body]
    is opened in the stream, the page [Read] returns has the empty [Text]. *)
Theorem text_only_from_body
    (toks : list Token) (zerr e : error) (url : string) (htmlBytes : bytes) (p : Page.t) :
  Forall (λ tok, ¬ opens "body" tok) toks →
  Page.Read_loop Page.Readers toks zerr (fresh_page url htmlBytes) = OK (p, e) →
  Page.Text p = "".
Proof.
  intros Htoks. rewrite Page_Read_loop. intros (p1 & Hrun & [= <- _])%bind_OK.
  apply Page_run_parts in Hrun as (Hrun & _).
  apply (pageReader_alone_no_body toks) in Hrun; [|done..].
  simpl in *. by rewrite Hrun.
Qed.

Lemma text_only_from_body_witness :
  Forall (λ tok, ¬ opens "body" tok)
    [start_tag "div" []; TextToken (bytes_of "outside"); EndTagToken "div"]
  ∧ Page.Read_loop Page.Readers
      [start_tag "div" []; TextToken (bytes_of "outside"); EndTagToken "div"]
      io_EOF (fresh_page "http://example.com" [])
    = OK (fresh_page "http://example.com" [], io_EOF)
  ∧ Page.Text (fresh_page "http://example.com" []) = "".
Proof.
  assert (Forall (λ tok, ¬ opens "body" tok)
            [start_tag "div" []; TextToken (bytes_of "outside"); EndTagToken "div"])
    as Htoks.
  { repeat (apply Forall_cons_2; [simpl; first [done|by intros []]|]).
    apply Forall_nil_2. }
  assert (Page.Read_loop Page.Readers
            [start_tag "div" []; TextToken (bytes_of "outside"); EndTagToken "div"]
            io_EOF (fresh_page "http://example.com" [])
          = OK (fresh_page "http://example.com" [], io_EOF)) as Hread by by vm_compute.
  do 2 (split; [done|]).
  by apply (text_only_from_body
              [start_tag "div" []; TextToken (bytes_of "outside"); EndTagToken "div"]
              io_EOF io_EOF "http://example.com" [] (fresh_page "http://example.com" [])).
Defined.

(** X6. The PageReader never fails, and what it collects is made of texts of
    the stream in document order: the bytes collected after a run are the
    bytes collected before, followed by the concatenation of a sublist of
    the texts of the text tokens. *)
Theorem text_in_document_order
    (toks : list Token) (s : PageReader.t * (string * string)) :
  ∃ s' sel,
    run pageReader_alone toks s = OK s'
    ∧ sel `sublist_of` texts_of toks
    ∧ PageReader.text s'.1 = PageReader.text s.1 ++ concat sel.
Proof.
  revert s. induction toks as [|tok toks IH]; intros s.
  - exists s, []. by rewrite app_nil_r.
  - destruct (pageReader_alone_feed tok s) as (s1 & Hfeed & Htext & _).
    destruct (IH s1) as (s' & sel & Hrun & Hsel & Hcat).
    simpl. rewrite Hfeed. simpl.
    destruct Htext as [Hsame|(text & -> & _ & Happ)].
    + exists s', sel. split; [done|]. split; [|congruence].
      unfold texts_of. simpl. destruct tok; simpl; try done.
      by apply sublist_cons.
    + exists s', (text :: sel). split; [done|]. split.
      * by apply sublist_skip.
      * simpl. rewrite Hcat, Happ. by rewrite <-app_assoc.
Qed.

(** ** More on the normalisation of the text *)

Lemma flat_from_spaces b s a :
  flat_from b s = true → a ∈ s → is_whitespace a = true → a = byte_of 32.
Proof.
  revert b. induction s as [|x s IH]; intros b Hflat Ha Hws.
  - by apply elem_of_nil in Ha.
  - simpl in Hflat. apply elem_of_cons in Ha as [->|Ha].
    + rewrite Hws in Hflat. rewrite !andb_true_iff, bool_decide_eq_true in Hflat.
      by destruct Hflat as [[? _] _].
    + destruct (is_whitespace x).
      * rewrite !andb_true_iff in Hflat. destruct Hflat as [_ Hflat]. by eapply IH.
      * by eapply IH.
Qed.

Lemma flat_from_no_double b l1 l2 :
  flat_from b (l1 ++ byte_of 32 :: byte_of 32 :: l2) = false.
Proof.
  destruct (flat_from b _) eqn:Hflat; [|done].
  apply flat_from_suffix in Hflat. by vm_compute in Hflat.
Qed.

(** X7. The normalised text is flat and trimmed: its only white space bytes
    (in the sense of [\s]: tab, line feed, form feed, carriage return,
    space) are spaces, no two spaces are adjacent, and it neither starts nor
    ends with a white space rune. *)
Theorem normalize_flat_and_trimmed (text : bytes) :
  (∀ a, a ∈ bytes_of (normalize text) → is_whitespace a = true → a = byte_of 32)
  ∧ (∀ l1 l2, bytes_of (normalize text) ≠ l1 ++ byte_of 32 :: byte_of 32 :: l2)
  ∧ strip_any space_runes (bytes_of (normalize text)) = None
  ∧ strip_any (map reverse space_runes) (reverse (bytes_of (normalize text))) = None.
Proof.
  assert (bytes_of (normalize text) = normalize_bytes text) as ->.
  { rewrite normalize_normalize_bytes. unfold bytes_of, string_of_bytes.
    apply list_ascii_of_string_of_list_ascii. }
  pose proof (normalize_bytes_flat text) as Hflat.
  split_and!.
  - intros a. by apply (flat_from_spaces false).
  - intros l1 l2 Heq. rewrite Heq in Hflat. by rewrite flat_from_no_double in Hflat.
  - unfold normalize_bytes.
    set (w := ReplaceAll is_whitespace _ _).
    destruct (TrimRight_prefix (TrimLeft w)) as [post Hpost].
    apply (strip_any_app_None _ _ post). rewrite <-Hpost.
    by apply trim_left_done; [apply space_runes_nonempty|].
  - unfold normalize_bytes, TrimRight. rewrite reverse_involutive.
    apply trim_left_done; [apply reverse_space_runes_nonempty|].
    by rewrite length_reverse.
Qed.

Lemma ReplaceAll_lineFeed_whitespace b s :
  Forall (λ a, is_whitespace a = true) s →
  Forall (λ a, is_whitespace a = true) (ReplaceAll_from is_lineFeed [byte_of 10] b s).
Proof.
  intros Hs. revert b. induction Hs as [|a s Ha _ IH]; intros b; simpl; [done|].
  destruct (is_lineFeed a); [destruct b|]; simpl; auto.
Qed.

Lemma ReplaceAll_whitespace_blank b s :
  Forall (λ a, is_whitespace a = true) s →
  ReplaceAll_from is_whitespace [byte_of 32] b s
  = if b then [] else match s with [] => [] | _ :: _ => [byte_of 32] end.
Proof.
  intros Hs. revert b. induction Hs as [|a s Ha _ IH]; intros b; simpl.
  - by destruct b.
  - rewrite Ha. destruct b; rewrite IH; done.
Qed.

(** X8. A text that consists of white space only (tabs, line feeds, form
    feeds, carriage returns, spaces), the empty text included, is normalised
    to the empty string. *)
Theorem normalize_blank (text : bytes) :
  Forall (λ a, is_whitespace a = true) text → normalize text = "".
Proof.
  intros Hws. rewrite normalize_normalize_bytes. unfold normalize_bytes, ReplaceAll.
  rewrite ReplaceAll_whitespace_blank by by apply ReplaceAll_lineFeed_whitespace.
  by destruct (ReplaceAll_from is_lineFeed _ false text).
Qed.

Lemma normalize_blank_witness :
  Forall (λ a, is_whitespace a = true) (indent 4 ++ indent 2)
  ∧ normalize (indent 4 ++ indent 2) = "".
Proof.
  assert (Forall (λ a, is_whitespace a = true) (indent 4 ++ indent 2)) as Hws.
  { repeat (apply Forall_cons_2; [done|]). apply Forall_nil_2. }
  split; [done|]. by apply (normalize_blank (indent 4 ++ indent 2)).
Defined.

Lemma ReplaceAll_from_length class c b s :
  (length (ReplaceAll_from class [c] b s) ≤ length s)%nat.
Proof.
  revert b. induction s as [|a s IH]; intros b; simpl; [done|].
  destruct (class a); [destruct b|]; simpl;
    [specialize (IH true)|specialize (IH true)|specialize (IH false)]; lia.
Qed.

(** X9. Normalising never makes the text longer. *)
Theorem normalize_length (text : bytes) :
  (length (bytes_of (normalize text)) ≤ length text)%nat.
Proof.
  rewrite normalize_normalize_bytes. unfold bytes_of, string_of_bytes.
  rewrite list_ascii_of_string_of_list_ascii. unfold normalize_bytes, ReplaceAll.
  set (u := ReplaceAll_from is_lineFeed _ false text).
  set (w := ReplaceAll_from is_whitespace _ false u).
  assert (length u ≤ length text)%nat by apply ReplaceAll_from_length.
  assert (length w ≤ length u)%nat by apply ReplaceAll_from_length.
  destruct (TrimLeft_suffix w) as [pre Hpre].
  destruct (TrimRight_prefix (TrimLeft w)) as [post Hpost].
  apply (f_equal length) in Hpre, Hpost. rewrite length_app in Hpre, Hpost. lia.
Qed.

(** ** More on the MetaReader *)

Lemma MetaReader_feed_outside_head tok r :
  ¬ opens "head" tok → MetaReader.inHead r = false →
  ∃ r', feed MetaReader.reader tok r = OK r'
    ∧ MetaReader.heap r' = MetaReader.heap r
    ∧ MetaReader.items r' = MetaReader.items r
    ∧ MetaReader.inHead r' = false.
Proof.
  assert (∀ tn attrs r, tn ≠ "head" → MetaReader.inHead r = false →
            MetaReader.HandleStart tn attrs r = OK r) as Hstart.
  { intros tn attrs r0 Htn Hhd. unfold MetaReader.HandleStart. rewrite Hhd.
    destruct (decide (tn = "head")); [done|]. by destruct (decide (tn = "meta")). }
  assert (∀ tn r, MetaReader.inHead r = false →
            MetaReader.heap (MetaReader.HandleEnd tn r) = MetaReader.heap r
            ∧ MetaReader.items (MetaReader.HandleEnd tn r) = MetaReader.items r
            ∧ MetaReader.inHead (MetaReader.HandleEnd tn r) = false) as Hend.
  { intros tn r0 Hhd. unfold MetaReader.HandleEnd. by repeat case_decide. }
  intros Htok Hhd.
  destruct tok as [text|tn ha z|tn|tn ha z|text|text]; simpl in *.
  - eexists. split; [done|]. unfold MetaReader.HandleText. rewrite Hhd.
    by rewrite andb_false_r.
  - rewrite Hstart by (done || congruence). by eexists.
  - eexists. split; [done|]. by apply Hend.
  - rewrite Hstart by (done || congruence). simpl.
    eexists. split; [done|]. by apply Hend.
  - by eexists.
  - by eexists.
Qed.

(** X10. Meta tags outside the head are not considered: as long as no
    element named [head] is opened, the MetaReader allocates nothing and
    its list of items stays as it is, whatever tags and texts go by. *)
Theorem meta_outside_head_ignored (toks : list Token) (r : MetaReader.t) :
  Forall (λ tok, ¬ opens "head" tok) toks →
  MetaReader.inHead r = false →
  ∃ r', run MetaReader.reader toks r = OK r'
    ∧ MetaReader.heap r' = MetaReader.heap r
    ∧ MetaReader.items r' = MetaReader.items r.
Proof.
  intros Htoks. revert r. induction Htoks as [|tok toks Htok _ IH]; intros r Hhd; simpl.
  - by eexists.
  - destruct (MetaReader_feed_outside_head tok r Htok Hhd) as (r1 & -> & <- & <- & Hhd1).
    simpl. by apply IH.
Qed.

Lemma meta_outside_head_ignored_witness :
  Forall (λ tok, ¬ opens "head" tok)
    [self_closing_tag "meta" [("itemprop", "ratingValue"); ("content", "4")];
     TextToken (bytes_of "Based on"); EndTagToken "head"]
  ∧ MetaReader.inHead MetaReader.new = false
  ∧ ∃ r', run MetaReader.reader
            [self_closing_tag "meta" [("itemprop", "ratingValue"); ("content", "4")];
             TextToken (bytes_of "Based on"); EndTagToken "head"] MetaReader.new = OK r'
      ∧ MetaReader.heap r' = MetaReader.heap MetaReader.new
      ∧ MetaReader.items r' = MetaReader.items MetaReader.new.
Proof.
  assert (Forall (λ tok, ¬ opens "head" tok)
            [self_closing_tag "meta" [("itemprop", "ratingValue"); ("content", "4")];
             TextToken (bytes_of "Based on"); EndTagToken "head"]) as Htoks.
  { repeat (apply Forall_cons_2; [simpl; first [done|by intros []]|]).
    apply Forall_nil_2. }
  do 2 (split; [done|]).
  by apply (meta_outside_head_ignored
              [self_closing_tag "meta" [("itemprop", "ratingValue"); ("content", "4")];
               TextToken (bytes_of "Based on"); EndTagToken "head"] MetaReader.new).
Defined.

Lemma prefix_colon_empty s : String.prefix (s +:+ ":") "" = false.
Proof. by destruct s. Qed.

(** X11. A meta tag in the head that has no [property] attribute, or that
    comes when there is no top-level Meta yet, is never folded: its Meta,
    built from the attributes, is appended to the top-level list. *)
Theorem meta_without_property_is_top_level
    (attrs : gmap string string) (r : MetaReader.t) :
  MetaReader.inHead r = true →
  attrs !! "property" = None ∨ MetaReader.items r = [] →
  MetaReader.HandleStart "meta" attrs r
  = OK (MetaReader.mk (MetaReader.heap r ++ [meta_of attrs])
          (MetaReader.items r ++ [length (MetaReader.heap r)]) true true).
Proof.
  intros Hhd Hcase. rewrite MetaReader_HandleStart_meta by done. cbv zeta.
  destruct (MetaReader.current r) as [c|] eqn:Hcur; [|done].
  destruct Hcase as [Hprop|Hitems].
  - assert (index attrs "property" = "") as -> by (unfold index; by rewrite Hprop).
    by rewrite prefix_colon_empty.
  - unfold MetaReader.current in Hcur. by rewrite Hitems in Hcur.
Qed.

Lemma meta_without_property_is_top_level_witness :
  MetaReader.inHead
    (MetaReader.mk [Meta.mk "og:image" "rock.jpg" "" []] [0] false true) = true
  ∧ ((AttrMap true [("name", "keywords"); ("content", "a,b,c")] !! "property" = None
      ∨ MetaReader.items
          (MetaReader.mk [Meta.mk "og:image" "rock.jpg" "" []] [0] false true) = [])
     ∧ MetaReader.HandleStart "meta"
         (AttrMap true [("name", "keywords"); ("content", "a,b,c")])
         (MetaReader.mk [Meta.mk "og:image" "rock.jpg" "" []] [0] false true)
       = OK (MetaReader.mk
               (MetaReader.heap
                  (MetaReader.mk [Meta.mk "og:image" "rock.jpg" "" []] [0] false true)
                ++ [meta_of (AttrMap true [("name", "keywords"); ("content", "a,b,c")])])
               (MetaReader.items
                  (MetaReader.mk [Meta.mk "og:image" "rock.jpg" "" []] [0] false true)
                ++ [length
                      (MetaReader.heap
                         (MetaReader.mk [Meta.mk "og:image" "rock.jpg" "" []] [0]
                            false true))])
               true true)).
Proof.
  assert (AttrMap true [("name", "keywords"); ("content", "a,b,c")] !! "property" = None)
    as Hprop by by vm_compute.
  split; [done|]. split; [by left|].
  apply (meta_without_property_is_top_level
           (AttrMap true [("name", "keywords"); ("content", "a,b,c")])
           (MetaReader.mk [Meta.mk "og:image" "rock.jpg" "" []] [0] false true));
    [done|by left].
Defined.

Lemma MetaReader_feed_past tok r r' p :
  feed MetaReader.reader tok r = OK r' →
  p < length (MetaReader.heap r) → MetaReader.current r ≠ Some p →
  MetaReader.load r' p = MetaReader.load r p
  ∧ p < length (MetaReader.heap r') ∧ MetaReader.current r' ≠ Some p.
Proof.
  assert (∀ tn r, MetaReader.load (MetaReader.HandleEnd tn r) p = MetaReader.load r p
                  ∧ MetaReader.heap (MetaReader.HandleEnd tn r) = MetaReader.heap r
                  ∧ MetaReader.current (MetaReader.HandleEnd tn r) = MetaReader.current r)
    as Hend.
  { intros tn r0. unfold MetaReader.HandleEnd. by repeat case_decide. }
  assert (∀ tn attrs r r', MetaReader.HandleStart tn attrs r = OK r' →
            p < length (MetaReader.heap r) → MetaReader.current r ≠ Some p →
            MetaReader.load r' p = MetaReader.load r p
            ∧ p < length (MetaReader.heap r') ∧ MetaReader.current r' ≠ Some p) as Hstart.
  { intros tn attrs r0 r1 Hr Hp Hcur. destruct (decide (tn = "meta")) as [->|Hmeta].
    - destruct (MetaReader.inHead r0) eqn:Hhd.
      + rewrite MetaReader_HandleStart_meta in Hr by done. simpl in Hr.
        assert (∀ ins hd, r1 = MetaReader.mk (MetaReader.heap r0 ++ [meta_of attrs])
                                 (MetaReader.items r0 ++ [length (MetaReader.heap r0)])
                                 ins hd →
                  MetaReader.load r1 p = MetaReader.load r0 p
                  ∧ p < length (MetaReader.heap r1)
                  ∧ MetaReader.current r1 ≠ Some p) as Hplain.
        { intros ins hd ->. unfold MetaReader.load, MetaReader.current. simpl.
          rewrite lookup_total_app_l by done. rewrite length_app, last_snoc. simpl.
          split_and!; [done|lia|]. intros [= Heq]. lia. }
        destruct (MetaReader.current r0) as [c|] eqn:Hc;
          [|injection Hr as <-; by eapply Hplain].
        destruct (String.prefix _ _); [|injection Hr as <-; by eapply Hplain].
        injection Hr as <-. unfold MetaReader.load, MetaReader.current in *. simpl.
        rewrite length_alter, length_app, Hc. simpl.
        rewrite list_lookup_total_alter_ne by congruence.
        rewrite lookup_total_app_l by done. split_and!; [done|lia|done].
      + unfold MetaReader.HandleStart in Hr. rewrite Hhd in Hr. simpl in Hr.
        by injection Hr as <-.
    - unfold MetaReader.HandleStart in Hr.
      destruct (decide (tn = "head")); [by injection Hr as <-|].
      destruct (decide (tn = "meta")); [done|]. by injection Hr as <-. }
  intros Hr Hp Hcur.
  destruct tok as [text|tn ha z|tn|tn ha z|text|text]; simpl in Hr.
  - injection Hr as <-. rewrite MetaReader_HandleText_others by done.
    destruct (MetaReader_HandleText_shape text r) as [Hit Hlen].
    unfold MetaReader.current. by rewrite Hit, Hlen.
  - by eapply Hstart.
  - injection Hr as <-. destruct (Hend tn r) as (-> & -> & ->). done.
  - apply bind_OK in Hr as (r1 & H1 & [= <-]).
    destruct (Hend tn r1) as (-> & -> & ->). by eapply Hstart.
  - by injection Hr as <-.
  - by injection Hr as <-.
Qed.

(** X12. A Meta the stream has moved past is final: an allocated Meta that
    is not the last top-level one (an earlier top-level Meta, or a folded
    one) is never changed by any later event. *)
Theorem past_metas_are_final (toks : list Token) (r r' : MetaReader.t) (p : ptr) :
  p < length (MetaReader.heap r) →
  MetaReader.current r ≠ Some p →
  run MetaReader.reader toks r = OK r' →
  MetaReader.load r' p = MetaReader.load r p.
Proof.
  revert r. induction toks as [|tok toks IH]; intros r Hp Hcur; simpl.
  - by intros [= <-].
  - intros (r1 & H1 & H2)%bind_OK.
    destruct (MetaReader_feed_past tok r r1 p H1 Hp Hcur) as (<- & Hp1 & Hcur1).
    by apply IH.
Qed.

Lemma past_metas_are_final_witness :
  1 < length (MetaReader.heap
                (MetaReader.mk [ Meta.mk "og:image" "" "" [1];
                                 Meta.mk "og:image:alt" "" "" [] ] [0] true true))
  ∧ MetaReader.current
      (MetaReader.mk [ Meta.mk "og:image" "" "" [1];
                       Meta.mk "og:image:alt" "" "" [] ] [0] true true) ≠ Some 1
  ∧ run MetaReader.reader [TextToken (bytes_of "A rock"); EndTagToken "meta"]
      (MetaReader.mk [ Meta.mk "og:image" "" "" [1];
                       Meta.mk "og:image:alt" "" "" [] ] [0] true true)
    = OK (MetaReader.mk [ Meta.mk "og:image" "A rock" "" [1];
                          Meta.mk "og:image:alt" "" "" [] ] [0] false true)
  ∧ MetaReader.load
      (MetaReader.mk [ Meta.mk "og:image" "A rock" "" [1];
                       Meta.mk "og:image:alt" "" "" [] ] [0] false true) 1
    = MetaReader.load
        (MetaReader.mk [ Meta.mk "og:image" "" "" [1];
                         Meta.mk "og:image:alt" "" "" [] ] [0] true true) 1.
Proof.
  split; [simpl; lia|]. split; [done|]. split; [by vm_compute|].
  apply (past_metas_are_final [TextToken (bytes_of "A rock"); EndTagToken "meta"]
           (MetaReader.mk [ Meta.mk "og:image" "" "" [1];
                            Meta.mk "og:image:alt" "" "" [] ] [0] true true)
           (MetaReader.mk [ Meta.mk "og:image" "A rock" "" [1];
                            Meta.mk "og:image:alt" "" "" [] ] [0] false true) 1);
    [simpl; lia|done|by vm_compute].
Defined.

(** *** The shape of the store after each event *)

Lemma lookup_total_snoc {A : Type} `{!Inhabited A} (h : list A) (x : A) p :
  (h ++ [x]) !!! p = if decide (p = length h) then x else h !!! p.
Proof.
  case_decide as Hp.
  - by apply list_lookup_total_middle.
  - destruct (decide (p < length h)).
    + by apply lookup_total_app_l.
    + rewrite !list_lookup_total_alt, !lookup_ge_None_2; [done|lia|].
      rewrite length_app. simpl. lia.
Qed.

(** A [meta] start tag in the head either appends its Meta to the top-level
    list or folds it into the last top-level Meta. *)
Lemma MetaReader_HandleStart_cases attrs r r' :
  meta_inv r → MetaReader.inHead r = true →
  MetaReader.HandleStart "meta" attrs r = OK r' →
  length (MetaReader.heap r') = S (length (MetaReader.heap r))
  ∧ ((MetaReader.items r' = MetaReader.items r ++ [length (MetaReader.heap r)]
      ∧ ∀ p, MetaReader.load r' p
             = if decide (p = length (MetaReader.heap r)) then meta_of attrs
               else MetaReader.load r p)
     ∨ (∃ c, MetaReader.current r = Some c
          ∧ c < length (MetaReader.heap r)
          ∧ String.prefix (Meta.Property (MetaReader.load r c) +:+ ":")
              (Meta.Property (meta_of attrs)) = true
          ∧ MetaReader.items r' = MetaReader.items r
          ∧ ∀ p, MetaReader.load r' p
                 = if decide (p = c)
                   then Meta.set_Extra
                          (Meta.Extra (MetaReader.load r c) ++ [length (MetaReader.heap r)])
                          (MetaReader.load r c)
                   else if decide (p = length (MetaReader.heap r)) then meta_of attrs
                   else MetaReader.load r p)).
Proof.
  intros [Hval _] Hhd. rewrite MetaReader_HandleStart_meta by done. cbv zeta.
  assert (∀ ins hd, r' = MetaReader.mk (MetaReader.heap r ++ [meta_of attrs])
                           (MetaReader.items r ++ [length (MetaReader.heap r)]) ins hd →
            length (MetaReader.heap r') = S (length (MetaReader.heap r))
            ∧ MetaReader.items r' = MetaReader.items r ++ [length (MetaReader.heap r)]
            ∧ ∀ p, MetaReader.load r' p
                   = if decide (p = length (MetaReader.heap r)) then meta_of attrs
                     else MetaReader.load r p) as Hplain.
  { intros ins hd ->. unfold MetaReader.load. simpl. rewrite length_app. simpl.
    split_and!; [lia|done|]. intros p. apply lookup_total_snoc. }
  destruct (MetaReader.current r) as [c|] eqn:Hcur.
  2:{ intros [= <-]. destruct (Hplain true true eq_refl) as (? & ? & ?). auto. }
  assert (c < length (MetaReader.heap r)) as Hc by by apply Hval, last_elem_of.
  rewrite lookup_total_app_l by done.
  destruct (String.prefix _ _) eqn:Hpre.
  2:{ intros [= <-]. destruct (Hplain true true eq_refl) as (? & ? & ?). auto. }
  intros [= <-]. simpl. rewrite length_alter, length_app. simpl.
  split; [lia|]. right. exists c. split_and!; [done..|].
  intros p. unfold MetaReader.load. simpl.
  rewrite list_lookup_total_alter.
  destruct (decide (c = p ∧ _)) as [[-> _]|Hne].
  - rewrite decide_True by done. by rewrite lookup_total_app_l.
  - rewrite decide_False.
    + apply lookup_total_snoc.
    + intros ->. apply Hne. split; [done|]. rewrite length_app. simpl. lia.
Qed.

(** Every other start tag changes flags only. *)
Lemma MetaReader_HandleStart_flags tn attrs r r' :
  tn ≠ "meta" ∨ MetaReader.inHead r = false →
  MetaReader.HandleStart tn attrs r = OK r' →
  MetaReader.heap r' = MetaReader.heap r ∧ MetaReader.items r' = MetaReader.items r.
Proof.
  intros Hcase. unfold MetaReader.HandleStart.
  destruct (decide (tn = "head")); [by intros [= <-]|].
  destruct (decide (tn = "meta")); [|by intros [= <-]].
  destruct Hcase as [?|Hhd]; [done|]. rewrite Hhd. by intros [= <-].
Qed.

(** An invariant of the shape of the store (the top-level list and the
    [Property] and [Extra] of every Meta) that holds after appending and
    after folding holds along every run. *)
Section shape_invariant.
Variable I : MetaReader.t → Prop.
Hypothesis I_shape : ∀ r r',
  MetaReader.items r' = MetaReader.items r →
  length (MetaReader.heap r') = length (MetaReader.heap r) →
  (∀ p, Meta.Extra (MetaReader.load r' p) = Meta.Extra (MetaReader.load r p)) →
  (∀ p, Meta.Property (MetaReader.load r' p) = Meta.Property (MetaReader.load r p)) →
  ((λ m, length (Meta.Extra m)) <$> MetaReader.heap r'
   = (λ m, length (Meta.Extra m)) <$> MetaReader.heap r) →
  I r → I r'.
Hypothesis I_start : ∀ attrs r r',
  meta_inv r → MetaReader.inHead r = true →
  MetaReader.HandleStart "meta" attrs r = OK r' → I r → I r'.

Lemma shape_invariant_HandleStart tn attrs r r' :
  meta_inv r → MetaReader.HandleStart tn attrs r = OK r' → I r → I r'.
Proof.
  intros Hinv Hr. destruct (decide (tn = "meta")) as [->|Htn].
  - destruct (MetaReader.inHead r) eqn:Hhd; [by eapply I_start|].
    destruct (MetaReader_HandleStart_flags _ _ _ _ (or_intror Hhd) Hr) as [Hh Hi].
    apply I_shape; unfold MetaReader.load; by rewrite ?Hh, ?Hi.
  - destruct (MetaReader_HandleStart_flags _ _ _ _ (or_introl Htn) Hr) as [Hh Hi].
    apply I_shape; unfold MetaReader.load; by rewrite ?Hh, ?Hi.
Qed.

Lemma shape_invariant_HandleEnd tn r : I r → I (MetaReader.HandleEnd tn r).
Proof.
  apply I_shape; unfold MetaReader.load, MetaReader.HandleEnd;
    by repeat case_decide.
Qed.

Lemma shape_invariant_HandleText text r : I r → I (MetaReader.HandleText text r).
Proof.
  destruct (MetaReader_HandleText_shape text r) as [Hit Hlen].
  apply I_shape; [done|done|apply MetaReader_HandleText_Extra|..].
  - intros p. unfold MetaReader.HandleText.
    destruct (_ && _); [|done]. destruct (MetaReader.current r) as [c|]; [|done].
    case_decide; [|done]. unfold MetaReader.load, MetaReader.store. simpl.
    rewrite list_lookup_total_alter. by destruct (decide _) as [[-> ?]|?].
  - unfold MetaReader.HandleText.
    destruct (_ && _); [|done]. destruct (MetaReader.current r) as [c|]; [|done].
    case_decide; [|done]. unfold MetaReader.store. simpl.
    rewrite (list_fmap_alter _ _ id) by by apply Forall_true.
    by rewrite list_alter_id.
Qed.

Lemma shape_invariant_run toks r r' :
  meta_inv r → I r → run MetaReader.reader toks r = OK r' → I r'.
Proof.
  revert r. induction toks as [|tok toks IH]; intros r Hinv Hr; simpl.
  - by intros [= <-].
  - intros (r1 & H1 & H2)%bind_OK.
    apply (IH r1); [by eapply meta_inv_feed| |done].
    destruct tok as [text|tn ha z|tn|tn ha z|text|text]; simpl in H1.
    + injection H1 as <-. by apply shape_invariant_HandleText.
    + by eapply shape_invariant_HandleStart.
    + injection H1 as <-. by apply shape_invariant_HandleEnd.
    + apply bind_OK in H1 as (r0 & H0 & [= <-]).
      apply shape_invariant_HandleEnd. by eapply shape_invariant_HandleStart.
    + by injection H1 as <-.
    + by injection H1 as <-.
Qed.
End shape_invariant.

Lemma increasing_nil : increasing [].
Proof. intros i j x y _ Hi. by rewrite lookup_nil in Hi. Qed.

Lemma increasing_snoc l n :
  increasing l → (∀ x, x ∈ l → x < n) → increasing (l ++ [n]).
Proof.
  intros Hl Hn i j x y Hij Hi Hj.
  assert (j < length (l ++ [n])) as Hjlen by by eapply lookup_lt_Some.
  rewrite length_app in Hjlen. simpl in Hjlen.
  rewrite lookup_app_l in Hi by lia.
  destruct (decide (j < length l)) as [Hlt|Hge].
  - rewrite lookup_app_l in Hj by done. exact (Hl i j x y Hij Hi Hj).
  - rewrite lookup_app_r in Hj by lia.
    replace (j - length l) with 0 in Hj by lia. injection Hj as <-.
    apply Hn. by eapply list_elem_of_lookup_2.
Qed.

Lemma meta_load_new p : MetaReader.load MetaReader.new p = Meta.zero.
Proof. unfold MetaReader.load. simpl. by rewrite list_lookup_total_alt. Qed.

Lemma meta_ordered_start attrs r r' :
  meta_inv r → MetaReader.inHead r = true →
  MetaReader.HandleStart "meta" attrs r = OK r' → meta_ordered r → meta_ordered r'.
Proof.
  intros Hinv Hhd Hr [Hitems Hextra Hafter].
  destruct (MetaReader_HandleStart_cases attrs r r' Hinv Hhd Hr)
    as (_ & [(Hit & Hload)|(c & Hcur & Hc & _ & Hit & Hload)]).
  - split.
    + rewrite Hit. apply increasing_snoc; [done|]. apply Hinv.
    + intros p. rewrite Hload. case_decide; [apply increasing_nil|apply Hextra].
    + intros p q. rewrite Hload. case_decide as Hp.
      * intros Hq. by apply elem_of_nil in Hq.
      * apply Hafter.
  - split.
    + by rewrite Hit.
    + intros p. rewrite Hload. case_decide; simpl.
      * apply increasing_snoc; [apply Hextra|].
        intros q Hq. by destruct (meta_extra_flat r Hinv c q Hq) as (_ & ? & _).
      * case_decide; [apply increasing_nil|apply Hextra].
    + intros p q. rewrite Hload. case_decide as Hp; simpl.
      * subst p. intros [Hq| ->%list_elem_of_singleton]%elem_of_app; [|done].
        by apply Hafter.
      * case_decide; [|apply Hafter]. intros Hq. by apply elem_of_nil in Hq.
Qed.

(** X13. Order is preserved: in the result of every run of the MetaReader
    the top-level Metas are in document order (their pointers, handed out in
    the order of the meta tags, increase along the list), and so are the
    entries of every [Extra], each of which comes after the Meta holding it. *)
Theorem metadata_in_document_order (toks : list Token) :
  ∃ r, run MetaReader.reader toks MetaReader.new = OK r
    ∧ increasing (MetaReader.items r)
    ∧ ∀ p, p ∈ MetaReader.items r →
        increasing (Meta.Extra (MetaReader.load r p))
        ∧ ∀ q, q ∈ Meta.Extra (MetaReader.load r p) → p < q.
Proof.
  destruct (MetaReader_run_returns toks MetaReader.new) as [r Hr].
  exists r. split; [done|].
  assert (meta_ordered r) as [Hitems Hextra Hafter].
  { apply (shape_invariant_run meta_ordered) with toks MetaReader.new;
      [|apply meta_ordered_start|apply meta_inv_new| |done].
    - intros r1 r2 Hit _ Hex _ _ [H1 H2 H3]. split.
      + by rewrite Hit.
      + intros p. rewrite Hex. apply H2.
      + intros p q. rewrite Hex. apply H3.
    - split; [apply increasing_nil|..].
      + intros p. rewrite meta_load_new. apply increasing_nil.
      + intros p q. rewrite meta_load_new. intros Hq. by apply elem_of_nil in Hq. }
  split; [done|]. intros p _. split; [apply Hextra|apply Hafter].
Qed.

Lemma sum_list_alter_S (l : list nat) c :
  c < length l → sum_list (alter S c l) = S (sum_list l).
Proof.
  revert c. induction l as [|x l IH]; intros c Hc; simpl in *; [lia|].
  destruct c as [|c]; simpl; [done|].
  change (list_alter S c l) with (alter S c l). rewrite IH by lia. lia.
Qed.

Lemma sum_list_append (l k : list nat) : sum_list (l ++ k) = sum_list l + sum_list k.
Proof. induction l as [|y l IH]; simpl; lia. Qed.



Lemma extends_parent_start attrs r r' :
  meta_inv r → MetaReader.inHead r = true →
  MetaReader.HandleStart "meta" attrs r = OK r' → extends_parent r → extends_parent r'.
Proof.
  intros Hinv Hhd Hr Hext.
  destruct (MetaReader_HandleStart_cases attrs r r' Hinv Hhd Hr)
    as (_ & [(Hit & Hload)|(c & Hcur & Hc & Hpre & Hit & Hload)]).
  - intros p q. rewrite (Hload p). case_decide as Hp.
    + intros Hq. by apply elem_of_nil in Hq.
    + intros Hq. destruct (meta_extra_flat r Hinv p q Hq) as (_ & Hlt & _).
      rewrite (Hload q), decide_False by lia. by apply Hext.
  - assert (c ∈ MetaReader.items r) as Hcin by by apply last_elem_of.
    assert (∀ p q, q ∈ Meta.Extra (MetaReader.load r p) →
              MetaReader.load r' q = MetaReader.load r q) as Hold.
    { intros p q Hq. destruct (meta_extra_flat r Hinv p q Hq) as (Hni & Hlt & _).
      rewrite Hload, decide_False by (by intros ->). by rewrite decide_False by lia. }
    intros p q. rewrite (Hload p). case_decide as Hp; simpl.
    + subst p. intros [Hq| ->%list_elem_of_singleton]%elem_of_app.
      * rewrite (Hold c q Hq). by apply Hext.
      * rewrite Hload, decide_False by lia. by rewrite decide_True.
    + case_decide.
      * intros Hq. by apply elem_of_nil in Hq.
      * intros Hq. rewrite (Hold p q Hq). by apply Hext.
Qed.

(** X15. What is folded belongs where it is: in the result of every run,
    the property of every entry of the [Extra] of a top-level Meta starts
    with the property of that Meta followed by a colon. *)
Theorem extra_extends_property (toks : list Token) :
  ∃ r, run MetaReader.reader toks MetaReader.new = OK r
    ∧ ∀ p q, p ∈ MetaReader.items r → q ∈ Meta.Extra (MetaReader.load r p) →
        String.prefix (Meta.Property (MetaReader.load r p) +:+ ":")
          (Meta.Property (MetaReader.load r q)) = true.
Proof.
  destruct (MetaReader_run_returns toks MetaReader.new) as [r Hr].
  exists r. split; [done|].
  assert (extends_parent r) as Hext.
  { apply (shape_invariant_run extends_parent) with toks MetaReader.new;
      [|apply extends_parent_start|apply meta_inv_new| |done].
    - intros r1 r2 _ _ Hex Hprop _ H p q. rewrite Hex, !Hprop. apply H.
    - intros p q. rewrite meta_load_new. intros Hq. by apply elem_of_nil in Hq. }
  intros p q _. apply Hext.
Qed.

(** ** More on the SchemaReader *)

Lemma SchemaReader_feed_in_head tok r :
  ¬ closes "head" tok →
  SchemaReader.inHead r = true → SchemaReader.insideProp r = false →
  feed SchemaReader.reader tok r = OK r.
Proof.
  intros Htok Hhd Hip.
  destruct tok as [text|tn ha z|tn|tn ha z|text|text]; simpl in *.
  - unfold SchemaReader.HandleText. by rewrite Hip.
  - by rewrite SchemaReader_HandleStart_inHead.
  - rewrite SchemaReader_HandleEnd_inHead by done. by rewrite decide_False by congruence.
  - rewrite SchemaReader_HandleStart_inHead by done.
    rewrite SchemaReader_HandleEnd_inHead by done. by rewrite decide_False by congruence.
  - done.
  - done.
Qed.

(** X16. Schema.org data in the head are not collected: once the reader is
    inside the head (and not inside a property), it stays exactly as it is
    until an element named [head] is closed, whatever tags and texts go by. *)
Theorem schema_in_head_ignored (toks : list Token) (r : SchemaReader.t) :
  Forall (λ tok, ¬ closes "head" tok) toks →
  SchemaReader.inHead r = true → SchemaReader.insideProp r = false →
  run SchemaReader.reader toks r = OK r.
Proof.
  intros Htoks Hhd Hip. induction Htoks as [|tok toks Htok _ IH]; simpl; [done|].
  by rewrite SchemaReader_feed_in_head.
Qed.

Lemma schema_in_head_ignored_witness :
  Forall (λ tok, ¬ closes "head" tok)
    [start_tag "div" [("itemscope", "")]; start_tag "span" [("itemprop", "name")];
     TextToken (bytes_of "Blend-O-Matic"); EndTagToken "span"; EndTagToken "div"]
  ∧ SchemaReader.inHead (SchemaReader.mk [] [] [] [] false true) = true
  ∧ SchemaReader.insideProp (SchemaReader.mk [] [] [] [] false true) = false
  ∧ run SchemaReader.reader
      [start_tag "div" [("itemscope", "")]; start_tag "span" [("itemprop", "name")];
       TextToken (bytes_of "Blend-O-Matic"); EndTagToken "span"; EndTagToken "div"]
      (SchemaReader.mk [] [] [] [] false true)
    = OK (SchemaReader.mk [] [] [] [] false true).
Proof.
  assert (Forall (λ tok, ¬ closes "head" tok)
            [start_tag "div" [("itemscope", "")]; start_tag "span" [("itemprop", "name")];
             TextToken (bytes_of "Blend-O-Matic"); EndTagToken "span"; EndTagToken "div"])
    as Htoks.
  { repeat (apply Forall_cons_2; [simpl; first [done|by intros []]|]).
    apply Forall_nil_2. }
  do 3 (split; [done|]).
  by apply (schema_in_head_ignored
              [start_tag "div" [("itemscope", "")]; start_tag "span" [("itemprop", "name")];
               TextToken (bytes_of "Blend-O-Matic"); EndTagToken "span"; EndTagToken "div"]
              (SchemaReader.mk [] [] [] [] false true)).
Defined.

Lemma no_scope_open_HandleStart tn attrs r :
  attrs !! "itemscope" = None → no_scope_open r →
  no_scope_open (SchemaReader.HandleStart tn attrs r)
  ∧ SchemaReader.heap (SchemaReader.HandleStart tn attrs r) = SchemaReader.heap r
  ∧ SchemaReader.items (SchemaReader.HandleStart tn attrs r) = SchemaReader.items r.
Proof.
  destruct r as [h it st bc ip hd]. unfold no_scope_open. simpl.
  intros Hscope (-> & -> & Hbc). unfold SchemaReader.HandleStart.
  destruct (decide (tn = "head")); simpl; [done|].
  destruct (hd || bool_decide (size attrs = 0)); simpl; [done|].
  rewrite bool_decide_eq_false_2 by (rewrite Hscope; by intros [? ?]). simpl.
  split_and!; try done. apply Forall_app. split; [done|]. by apply Forall_singleton.
Qed.

Lemma no_scope_open_HandleEnd tn r :
  no_scope_open r →
  ∃ r', SchemaReader.HandleEnd tn r = OK r'
    ∧ no_scope_open r'
    ∧ SchemaReader.heap r' = SchemaReader.heap r
    ∧ SchemaReader.items r' = SchemaReader.items r.
Proof.
  destruct r as [h it st bc ip hd]. unfold no_scope_open. simpl.
  intros (-> & -> & Hbc). unfold SchemaReader.HandleEnd. simpl.
  destruct hd; [eexists; split; [done|]; by case_decide|].
  destruct (last bc) as [m|] eqn:Hlast; simpl; [|by eexists].
  pose proof (last_Some_snoc _ _ Hlast) as Hsnoc. rewrite Hsnoc in Hbc.
  apply Forall_app in Hbc as [Hinit ->%Forall_singleton].
  eexists. split; [done|]. done.
Qed.

Lemma no_scope_open_feed tok r :
  ¬ carries "itemscope" tok → no_scope_open r →
  ∃ r', feed SchemaReader.reader tok r = OK r'
    ∧ no_scope_open r'
    ∧ SchemaReader.heap r' = SchemaReader.heap r
    ∧ SchemaReader.items r' = SchemaReader.items r.
Proof.
  intros Htok Hr.
  assert (∀ ha z, ¬ is_Some (AttrMap ha z !! "itemscope") →
            AttrMap ha z !! "itemscope" = None) as Hnone.
  { intros ha z H. by apply eq_None_not_Some. }
  destruct tok as [text|tn ha z|tn|tn ha z|text|text]; simpl in *.
  - unfold SchemaReader.HandleText. destruct Hr as (? & Hip & ?). rewrite Hip.
    by eexists.
  - eexists. split; [done|]. apply no_scope_open_HandleStart; auto.
  - by apply no_scope_open_HandleEnd.
  - destruct (no_scope_open_HandleStart tn (AttrMap ha z) r) as (H1 & <- & <-); auto.
    by apply no_scope_open_HandleEnd.
  - by eexists.
  - by eexists.
Qed.

(** X17. No [itemscope], no data: on a stream in which no tag carries an
    [itemscope] attribute the SchemaReader runs to the end, never reaches
    its [log.Fatalln], and collects nothing, whatever [itemprop] attributes
    there are. *)
Theorem no_itemscope_no_data (toks : list Token) :
  Forall (λ tok, ¬ carries "itemscope" tok) toks →
  ∃ r, run SchemaReader.reader toks SchemaReader.new = OK r
    ∧ SchemaReader.heap r = []
    ∧ SchemaReader.items r = [].
Proof.
  intros Htoks.
  assert (∀ r, no_scope_open r →
            ∃ r', run SchemaReader.reader toks r = OK r'
              ∧ SchemaReader.heap r' = SchemaReader.heap r
              ∧ SchemaReader.items r' = SchemaReader.items r) as Hgen.
  { induction Htoks as [|tok toks Htok _ IH]; intros r Hr; simpl; [by eexists|].
    destruct (no_scope_open_feed tok r Htok Hr) as (r1 & -> & Hr1 & <- & <-).
    simpl. by apply IH. }
  apply (Hgen SchemaReader.new). by split_and!.
Qed.

Lemma no_itemscope_no_data_witness :
  Forall (λ tok, ¬ carries "itemscope" tok)
    [start_tag "span" [("itemprop", "name")]; TextToken (bytes_of "Blend-O-Matic");
     EndTagToken "span"]
  ∧ ∃ r, run SchemaReader.reader
           [start_tag "span" [("itemprop", "name")]; TextToken (bytes_of "Blend-O-Matic");
            EndTagToken "span"] SchemaReader.new = OK r
      ∧ SchemaReader.heap r = []
      ∧ SchemaReader.items r = [].
Proof.
  assert (Forall (λ tok, ¬ carries "itemscope" tok)
            [start_tag "span" [("itemprop", "name")]; TextToken (bytes_of "Blend-O-Matic");
             EndTagToken "span"]) as Htoks.
  { repeat (apply Forall_cons_2;
              [simpl; first [by intros []|by vm_compute; intros [? ?]]|]).
    apply Forall_nil_2. }
  split; [done|].
  by apply (no_itemscope_no_data
              [start_tag "span" [("itemprop", "name")]; TextToken (bytes_of "Blend-O-Matic");
               EndTagToken "span"]).
Defined.

Lemma SchemaReader_feed_Fatal tok r msg :
  feed SchemaReader.reader tok r = Fatal msg →
  msg = "No prop to set content from text node".
Proof.
  assert (∀ tn r, SchemaReader.HandleEnd tn r ≠ Fatal msg) as Hend.
  { intros tn r0. unfold SchemaReader.HandleEnd, SchemaReader.pop.
    repeat case_match; simpl; try done. }
  destruct tok as [text|tn ha z|tn|tn ha z|text|text]; simpl; try done.
  - unfold SchemaReader.HandleText. repeat case_match; try done; by intros [= <-].
  - intros H. by apply Hend in H.
  - intros H. by apply Hend in H.
Qed.

(** X18. The SchemaReader never panics, and the only way it stops before
    the end of a stream is the [log.Fatalln] of [HandleText]; when it gets
    through, the scope stack has one entry per [true] marker and every
    entry is a scope of the store. *)
Theorem SchemaReader_stops_only_at_Fatalln (toks : list Token) :
  match run SchemaReader.reader toks SchemaReader.new with
  | OK r => stacks_agree r ∧ stack_allocated r
  | Fatal msg => msg = "No prop to set content from text node"
  | Panic => False
  end.
Proof.
  assert (∀ r, stacks_agree r → stack_allocated r →
            match run SchemaReader.reader toks r with
            | OK r' => stacks_agree r' ∧ stack_allocated r'
            | Fatal msg => msg = "No prop to set content from text node"
            | Panic => False
            end) as Hgen.
  { induction toks as [|tok toks IH]; intros r Hag Hal; simpl; [done|].
    pose proof (stacks_agree_feed tok r Hag) as Hfeed.
    destruct (feed SchemaReader.reader tok r) as [r1|msg|] eqn:Hf; simpl; [|..|done].
    - apply IH; [done|]. by eapply stack_allocated_feed.
    - by eapply SchemaReader_feed_Fatal. }
  apply Hgen; [done|]. intros s Hs. by apply elem_of_nil in Hs.
Qed.

Lemma SchemaReader_HandleStart_closed tn attrs r p :
  stack_allocated r →
  p < length (SchemaReader.heap r) → p ∉ SchemaReader.stack r →
  SchemaReader.load (SchemaReader.HandleStart tn attrs r) p = SchemaReader.load r p
  ∧ p < length (SchemaReader.heap (SchemaReader.HandleStart tn attrs r))
  ∧ p ∉ SchemaReader.stack (SchemaReader.HandleStart tn attrs r).
Proof.
  destruct r as [h it st bc ip hd]. unfold stack_allocated, SchemaReader.load. simpl.
  intros Hal Hp Hst. unfold SchemaReader.HandleStart.
  destruct (decide (tn = "head")); simpl; [done|].
  destruct (hd || bool_decide (size attrs = 0)); simpl; [done|].
  destruct (bool_decide (is_Some (attrs !! "itemscope"))); simpl.
  - unfold SchemaReader.next. simpl.
    assert (p ∉ st ++ [length h]) as Hst'.
    { intros [?| ->%list_elem_of_singleton]%elem_of_app; [done|lia]. }
    destruct (last st) as [cur|] eqn:Hlast; simpl.
    + assert (cur ≠ p) by (intros ->; by apply Hst, last_elem_of).
      rewrite !length_alter, length_app. simpl.
      rewrite !list_lookup_total_alter_ne by (done || lia).
      rewrite lookup_total_app_l by done. split_and!; [done|lia|done].
    + rewrite !length_alter, length_app. simpl.
      rewrite !list_lookup_total_alter_ne by lia.
      rewrite lookup_total_app_l by done. split_and!; [done|lia|done].
  - unfold SchemaReader.current. simpl.
    destruct (last st) as [cur|] eqn:Hlast, (attrs !! "itemprop") as [itemprop|];
      simpl; try done.
    assert (cur ≠ p) by (intros ->; by apply Hst, last_elem_of).
    rewrite length_alter. by rewrite list_lookup_total_alter_ne.
Qed.

Lemma SchemaReader_HandleEnd_closed tn r r' p :
  SchemaReader.HandleEnd tn r = OK r' →
  p ∉ SchemaReader.stack r →
  SchemaReader.heap r' = SchemaReader.heap r ∧ p ∉ SchemaReader.stack r'.
Proof.
  intros Hr Hst. destruct (SchemaReader.inHead r) eqn:Hhd.
  - rewrite SchemaReader_HandleEnd_inHead in Hr by done. injection Hr as <-.
    by case_decide.
  - destruct (SchemaReader_HandleEnd_stacks tn r r' Hhd Hr) as (_ & _ & _ & Hs).
    split.
    + unfold SchemaReader.HandleEnd, SchemaReader.pop in Hr. rewrite Hhd in Hr.
      repeat case_match; simplify_eq/=; done.
    + rewrite Hs. destruct (default false _); [|done].
      intros Hin. apply Hst. by eapply elem_of_prefix; [|apply init_prefix].
Qed.

Lemma SchemaReader_feed_closed tok r r' p :
  stack_allocated r →
  p < length (SchemaReader.heap r) → p ∉ SchemaReader.stack r →
  feed SchemaReader.reader tok r = OK r' →
  SchemaReader.load r' p = SchemaReader.load r p
  ∧ p < length (SchemaReader.heap r') ∧ p ∉ SchemaReader.stack r'.
Proof.
  intros Hal Hp Hst.
  destruct tok as [text|tn ha z|tn|tn ha z|text|text]; simpl.
  - intros Ht. pose proof Ht as (_ & _ & _ & Hs)%SchemaReader_HandleText_stacks.
    rewrite Hs. unfold SchemaReader.HandleText in Ht.
    destruct (SchemaReader.insideProp r); [|by injection Ht as <-].
    destruct (SchemaReader.current r) as [cur|] eqn:Hcur; [|done].
    case_decide; [done|]. injection Ht as <-.
    assert (cur ≠ p) by (intros ->; by apply Hst, last_elem_of).
    unfold SchemaReader.load, SchemaReader.store. simpl.
    rewrite length_alter. by rewrite list_lookup_total_alter_ne.
  - intros [= <-]. by apply SchemaReader_HandleStart_closed.
  - intros Hr. destruct (SchemaReader_HandleEnd_closed tn r r' p Hr Hst) as [Hh Hs].
    unfold SchemaReader.load. by rewrite Hh.
  - intros Hr.
    destruct (SchemaReader_HandleStart_closed tn (AttrMap ha z) r p Hal Hp Hst)
      as (Hl & Hp1 & Hs1).
    destruct (SchemaReader_HandleEnd_closed tn _ r' p Hr Hs1) as [Hh Hs].
    unfold SchemaReader.load in *. by rewrite Hh.
  - by intros [= <-].
  - by intros [= <-].
Qed.

(** X19. A closed scope is final: a scope of the store that is not on the
    stack (it has been popped by its end tag) is never changed by any later
    event, and never comes back onto the stack. *)
Theorem closed_scopes_are_final
    (toks : list Token) (r r' : SchemaReader.t) (p : ptr) :
  stack_allocated r →
  p < length (SchemaReader.heap r) → p ∉ SchemaReader.stack r →
  run SchemaReader.reader toks r = OK r' →
  SchemaReader.load r' p = SchemaReader.load r p ∧ p ∉ SchemaReader.stack r'.
Proof.
  revert r. induction toks as [|tok toks IH]; intros r Hal Hp Hst; simpl.
  - by intros [= <-].
  - intros (r1 & H1 & H2)%bind_OK.
    destruct (SchemaReader_feed_closed tok r r1 p Hal Hp Hst H1) as (<- & Hp1 & Hst1).
    apply IH; [|done..]. by eapply stack_allocated_feed.
Qed.

Lemma closed_scopes_are_final_witness :
  stack_allocated after_person
  ∧ 0 < length (SchemaReader.heap after_person)
  ∧ (0 ∉ SchemaReader.stack after_person)
  ∧ run SchemaReader.reader person_scope after_person = OK after_two_persons
  ∧ (SchemaReader.load after_two_persons 0 = SchemaReader.load after_person 0
     ∧ (0 ∉ SchemaReader.stack after_two_persons)).
Proof.
  assert (stack_allocated after_person) as Hal.
  { intros s Hs. by apply elem_of_nil in Hs. }
  assert (0 ∉ SchemaReader.stack after_person) as Hst by apply not_elem_of_nil.
  split; [done|]. split; [simpl; lia|]. split; [done|]. split; [by vm_compute|].
  apply (closed_scopes_are_final person_scope after_person after_two_persons 0);
    [done|simpl; lia|done|by vm_compute].
Defined.

(** *** The forest of scopes *)

Lemma Children_alter (f : ItemScope.t → ItemScope.t) i (l : list ItemScope.t) p :
  (∀ x, ItemScope.Children (f x) = ItemScope.Children x) →
  ItemScope.Children (alter f i l !!! p) = ItemScope.Children (l !!! p).
Proof.
  intros Hf. rewrite list_lookup_total_alter.
  by destruct (decide _) as [[-> ?]|?].
Qed.

Lemma Children_lengths_alter (f : ItemScope.t → ItemScope.t) i (l : list ItemScope.t) :
  (∀ x, ItemScope.Children (f x) = ItemScope.Children x) →
  (λ s, length (ItemScope.Children s)) <$> alter f i l
  = (λ s, length (ItemScope.Children s)) <$> l.
Proof.
  intros Hf. rewrite (list_fmap_alter _ _ id).
  - by rewrite list_alter_id.
  - apply Forall_true. intros x. simpl. by rewrite Hf.
Qed.

Lemma Children_snoc_zero (h : list ItemScope.t) p :
  ItemScope.Children ((h ++ [ItemScope.zero]) !!! p) = ItemScope.Children (h !!! p).
Proof.
  rewrite lookup_total_snoc. case_decide as Hp; [|done]. subst p.
  by rewrite list_lookup_total_alt, lookup_ge_None_2.
Qed.

(** What a start tag does to the forest: nothing, a new root, or a new child
    of the current scope. *)
Lemma SchemaReader_HandleStart_forest tn attrs r :
  stack_allocated r →
  let r' := SchemaReader.HandleStart tn attrs r in
  let n := length (SchemaReader.heap r) in
  (length (SchemaReader.heap r') = n
   ∧ SchemaReader.items r' = SchemaReader.items r
   ∧ (∀ p, ItemScope.Children (SchemaReader.load r' p)
           = ItemScope.Children (SchemaReader.load r p))
   ∧ nested r' = nested r)
  ∨ (length (SchemaReader.heap r') = S n
     ∧ SchemaReader.items r' = SchemaReader.items r ++ [n]
     ∧ (∀ p, ItemScope.Children (SchemaReader.load r' p)
             = ItemScope.Children (SchemaReader.load r p))
     ∧ nested r' = nested r)
  ∨ (∃ cur, cur < n
       ∧ length (SchemaReader.heap r') = S n
       ∧ SchemaReader.items r' = SchemaReader.items r
       ∧ (∀ p, ItemScope.Children (SchemaReader.load r' p)
               = if decide (p = cur)
                 then ItemScope.Children (SchemaReader.load r cur) ++ [n]
                 else ItemScope.Children (SchemaReader.load r p))
       ∧ nested r' = S (nested r)).
Proof.
  destruct r as [h it st bc ip hd].
  unfold stack_allocated, SchemaReader.load, nested. simpl. intros Hal.
  unfold SchemaReader.HandleStart.
  destruct (decide (tn = "head")); simpl; [by left|].
  destruct (hd || bool_decide (size attrs = 0)); simpl; [by left|].
  destruct (bool_decide (is_Some (attrs !! "itemscope"))); simpl.
  - right. unfold SchemaReader.next. simpl.
    destruct (last st) as [cur|] eqn:Hlast; simpl.
    + right. exists cur.
      assert (cur < length h) as Hcur by by apply Hal, last_elem_of.
      rewrite !length_alter, length_app. simpl. split_and!; [done|lia|done|..].
      * intros p. rewrite !Children_alter by done.
        rewrite list_lookup_total_alter.
        destruct (decide (cur = p ∧ _)) as [[-> _]|Hne].
        -- rewrite decide_True by done. simpl. by rewrite Children_snoc_zero.
        -- rewrite decide_False; [apply Children_snoc_zero|].
           intros ->. apply Hne. split; [done|]. rewrite length_app. simpl. lia.
      * rewrite !Children_lengths_alter by done.
        rewrite (list_fmap_alter _ _ S).
        -- rewrite sum_list_alter_S by (rewrite length_fmap, length_app; simpl; lia).
           rewrite fmap_app, sum_list_append. simpl. lia.
        -- apply Forall_true. intros x. simpl. rewrite length_app. simpl. lia.
    + left. rewrite !length_alter, length_app. simpl. split_and!; [lia|done|..].
      * intros p. rewrite !Children_alter by done. apply Children_snoc_zero.
      * rewrite !Children_lengths_alter by done.
        rewrite fmap_app, sum_list_append. simpl. lia.
  - left. unfold SchemaReader.current. simpl.
    destruct (last st) as [cur|], (attrs !! "itemprop") as [itemprop|]; simpl; try done.
    rewrite length_alter. split_and!; [done..| |].
    + intros p. by rewrite Children_alter.
    + by rewrite Children_lengths_alter.
Qed.

(** End tags and texts leave the forest alone. *)
Lemma SchemaReader_HandleEnd_heap tn r r' :
  SchemaReader.HandleEnd tn r = OK r' →
  SchemaReader.heap r' = SchemaReader.heap r ∧ SchemaReader.items r' = SchemaReader.items r.
Proof.
  unfold SchemaReader.HandleEnd, SchemaReader.pop.
  repeat case_match; intros; simplify_eq/=; done.
Qed.

Lemma SchemaReader_HandleText_forest text r r' :
  SchemaReader.HandleText text r = OK r' →
  length (SchemaReader.heap r') = length (SchemaReader.heap r)
  ∧ SchemaReader.items r' = SchemaReader.items r
  ∧ (∀ p, ItemScope.Children (SchemaReader.load r' p)
          = ItemScope.Children (SchemaReader.load r p))
  ∧ nested r' = nested r.
Proof.
  unfold SchemaReader.HandleText.
  destruct (SchemaReader.insideProp r); [|by intros [= <-]].
  destruct (SchemaReader.current r) as [cur|]; [|done].
  case_decide; [done|]. intros [= <-].
  unfold SchemaReader.load, SchemaReader.store, nested. simpl.
  rewrite length_alter. split_and!; [done..| |].
  - intros p. by rewrite Children_alter.
  - by rewrite Children_lengths_alter.
Qed.

(** An invariant of the forest that survives a new root and a new child
    holds along every run. *)
Section forest_invariant.
Variable I : SchemaReader.t → Prop.
Hypothesis I_same : ∀ r r',
  length (SchemaReader.heap r') = length (SchemaReader.heap r) →
  SchemaReader.items r' = SchemaReader.items r →
  (∀ p, ItemScope.Children (SchemaReader.load r' p)
        = ItemScope.Children (SchemaReader.load r p)) →
  nested r' = nested r →
  I r → I r'.
Hypothesis I_start : ∀ tn attrs r,
  stack_allocated r → I r → I (SchemaReader.HandleStart tn attrs r).

Lemma forest_invariant_HandleEnd tn r r' :
  SchemaReader.HandleEnd tn r = OK r' → I r → I r'.
Proof.
  intros [Hh Hi]%SchemaReader_HandleEnd_heap.
  apply I_same; unfold SchemaReader.load, nested; by rewrite ?Hh, ?Hi.
Qed.

Lemma forest_invariant_run toks r r' :
  stack_allocated r → I r → run SchemaReader.reader toks r = OK r' → I r'.
Proof.
  revert r. induction toks as [|tok toks IH]; intros r Hal Hr; simpl.
  - by intros [= <-].
  - intros (r1 & H1 & H2)%bind_OK.
    apply (IH r1); [by eapply stack_allocated_feed| |done].
    destruct tok as [text|tn ha z|tn|tn ha z|text|text]; simpl in H1.
    + destruct (SchemaReader_HandleText_forest text r r1 H1) as (? & ? & ? & ?).
      by apply (I_same r).
    + injection H1 as <-. by apply I_start.
    + by eapply forest_invariant_HandleEnd.
    + eapply forest_invariant_HandleEnd; [done|]. by apply I_start.
    + by injection H1 as <-.
    + by injection H1 as <-.
Qed.
End forest_invariant.

Lemma schema_load_new p : SchemaReader.load SchemaReader.new p = ItemScope.zero.
Proof. unfold SchemaReader.load. simpl. by rewrite list_lookup_total_alt. Qed.

Lemma schema_forest_start tn attrs r :
  stack_allocated r → schema_forest r →
  schema_forest (SchemaReader.HandleStart tn attrs r).
Proof.
  intros Hal [Hroots Hvalid Hchildren Hparent].
  destruct (SchemaReader_HandleStart_forest tn attrs r Hal)
    as [(Hlen & Hit & Hch & _)|[(Hlen & Hit & Hch & _)|(cur & Hcur & Hlen & Hit & Hch & _)]].
  - split.
    + by rewrite Hit.
    + intros p. rewrite Hit, Hlen. apply Hvalid.
    + intros p. rewrite Hch. apply Hchildren.
    + intros p q. rewrite Hch, Hlen. apply Hparent.
  - split.
    + rewrite Hit. by apply increasing_snoc.
    + intros p. rewrite Hit, Hlen.
      intros [Hp%Hvalid| ->%list_elem_of_singleton]%elem_of_app; lia.
    + intros p. rewrite Hch. apply Hchildren.
    + intros p q. rewrite Hch, Hlen. intros Hq%Hparent. lia.
  - split.
    + by rewrite Hit.
    + intros p. rewrite Hit, Hlen. intros Hp%Hvalid. lia.
    + intros p. rewrite Hch. case_decide; [|apply Hchildren].
      apply increasing_snoc; [apply Hchildren|]. intros q Hq%Hparent. lia.
    + intros p q. rewrite Hch, Hlen. case_decide as Hp.
      * subst p. intros [Hq%Hparent| ->%list_elem_of_singleton]%elem_of_app; lia.
      * intros Hq%Hparent. lia.
Qed.

(** X20. The scopes form a forest in document order: whenever the
    SchemaReader gets through a stream, its roots are in document order, so
    are the children of every scope, and every child is a scope of the store
    allocated after its parent (so no scope is its own descendant). *)
Theorem scopes_form_a_forest (toks : list Token) (r : SchemaReader.t) :
  run SchemaReader.reader toks SchemaReader.new = OK r →
  increasing (SchemaReader.items r)
  ∧ (∀ p, p ∈ SchemaReader.items r → p < length (SchemaReader.heap r))
  ∧ ∀ p, increasing (ItemScope.Children (SchemaReader.load r p))
      ∧ ∀ q, q ∈ ItemScope.Children (SchemaReader.load r p) →
          p < q ∧ q < length (SchemaReader.heap r).
Proof.
  intros Hrun.
  assert (schema_forest r) as [Hroots Hvalid Hchildren Hparent].
  { apply (forest_invariant_run schema_forest) with toks SchemaReader.new;
      [|apply schema_forest_start| | |done].
    - intros r1 r2 Hlen Hit Hch _ [H1 H2 H3 H4]. split.
      + by rewrite Hit.
      + intros p. rewrite Hit, Hlen. apply H2.
      + intros p. rewrite Hch. apply H3.
      + intros p q. rewrite Hch, Hlen. apply H4.
    - intros s Hs. by apply elem_of_nil in Hs.
    - split.
      + apply increasing_nil.
      + intros p Hp. by apply elem_of_nil in Hp.
      + intros p. rewrite schema_load_new. apply increasing_nil.
      + intros p q. rewrite schema_load_new. intros Hq. by apply elem_of_nil in Hq. }
  split_and!; [done..|]. intros p. split; [apply Hchildren|apply Hparent].
Qed.

Lemma scopes_form_a_forest_witness :
  run SchemaReader.reader person_scope SchemaReader.new = OK after_person
  ∧ (increasing (SchemaReader.items after_person)
     ∧ (∀ p, p ∈ SchemaReader.items after_person →
          p < length (SchemaReader.heap after_person))
     ∧ ∀ p, increasing (ItemScope.Children (SchemaReader.load after_person p))
         ∧ ∀ q, q ∈ ItemScope.Children (SchemaReader.load after_person p) →
             p < q ∧ q < length (SchemaReader.heap after_person)).
Proof.
  assert (run SchemaReader.reader person_scope SchemaReader.new = OK after_person)
    as Hrun by by vm_compute.
  split; [done|]. by apply (scopes_form_a_forest person_scope after_person).
Defined.



(** ** More on Scrape *)

Section scrape_facts.
Context {Response : Type}.
Variable http_Get : string → Response * error.
Variable ioutil_ReadAll : Response → bytes * error.
Variable Body_Read : Response → bytes → nat * error.
Variable tokenizer : bytes → list Token * error.

(** X22. The page [Scrape] returns is the page of the URL asked for.  When
    the fetch fails ([http.Get] or [ioutil.ReadAll] reports an error), that
    error comes back with the empty page; otherwise [HTML] is the body
    fetched, untouched by the readers. *)
Theorem Scrape_page_identity (url : string) (p : Page.t) (err : error) :
  Scrape http_Get ioutil_ReadAll tokenizer url = OK (p, err) →
  Page.URL p = url
  ∧ (((http_Get url).2 ≠ nil ∧ err = (http_Get url).2 ∧ p = empty_page url)
     ∨ ((http_Get url).2 = nil
        ∧ (ioutil_ReadAll (http_Get url).1).2 ≠ nil
        ∧ err = (ioutil_ReadAll (http_Get url).1).2 ∧ p = empty_page url)
     ∨ ((http_Get url).2 = nil
        ∧ (ioutil_ReadAll (http_Get url).1).2 = nil
        ∧ Page.HTML p = string_of_bytes (ioutil_ReadAll (http_Get url).1).1)).
Proof.
  unfold Scrape. destruct (http_Get url) as [resp e1]. simpl.
  destruct (decide (e1 ≠ nil)) as [He1|He1].
  { intros [= <- <-]. split; [done|]. by left. }
  destruct (ioutil_ReadAll resp) as [body e2]. simpl.
  destruct (decide (e2 ≠ nil)) as [He2|He2].
  { intros [= <- <-]. split; [done|]. right. left. split; [|done].
    by destruct (decide (e1 = nil)). }
  rewrite Page_Read.
  intros ([p2 e] & (p1 & Hrun & [= <- <-])%bind_OK & H)%bind_OK.
  apply Page_run_parts in Hrun as (_ & Hurl & Hhtml).
  assert (p = finalized p1) as -> by (by case_decide; injection H as <- _).
  split; [done|]. right. right.
  split; [by destruct (decide (e1 = nil))|].
  split; [by destruct (decide (e2 = nil))|done].
Qed.

End scrape_facts.

Lemma Scrape_page_identity_witness :
  Scrape sample_Get sample_ReadAll failing_tokenizer "http://example.com"
  = OK (finalized page_at_failure, Err "unexpected error")
  ∧ (Page.URL (finalized page_at_failure) = "http://example.com"
     ∧ (((sample_Get "http://example.com").2 ≠ nil
         ∧ Err "unexpected error" = (sample_Get "http://example.com").2
         ∧ finalized page_at_failure = empty_page "http://example.com")
        ∨ ((sample_Get "http://example.com").2 = nil
           ∧ (sample_ReadAll (sample_Get "http://example.com").1).2 ≠ nil
           ∧ Err "unexpected error" = (sample_ReadAll (sample_Get "http://example.com").1).2
           ∧ finalized page_at_failure = empty_page "http://example.com")
        ∨ ((sample_Get "http://example.com").2 = nil
           ∧ (sample_ReadAll (sample_Get "http://example.com").1).2 = nil
           ∧ Page.HTML (finalized page_at_failure)
             = string_of_bytes (sample_ReadAll (sample_Get "http://example.com").1).1))).
Proof.
  assert (Scrape sample_Get sample_ReadAll failing_tokenizer "http://example.com"
          = OK (finalized page_at_failure, Err "unexpected error")) as Hscrape
    by by vm_compute.
  split; [done|].
  by apply (Scrape_page_identity sample_Get sample_ReadAll failing_tokenizer
              "http://example.com" (finalized page_at_failure) (Err "unexpected error")).
Defined.


(** ** More on the two replacements and on TrimSpace *)

Lemma ReplaceAll_whitespace_after_lineFeed b b' s :
  (b' = true → b = true) →
  ReplaceAll_from is_whitespace [byte_of 32] b
    (ReplaceAll_from is_lineFeed [byte_of 10] b' s)
  = ReplaceAll_from is_whitespace [byte_of 32] b s.
Proof.
  revert b b'. induction s as [|a s IH]; intros b b' Hb; simpl; [done|].
  destruct (is_lineFeed a) eqn:Hlf.
  - rewrite (is_lineFeed_whitespace a Hlf).
    destruct b'.
    + rewrite Hb by done. by apply IH.
    + simpl. destruct b; by rewrite IH.
  - simpl. destruct (is_whitespace a).
    + destruct b; by rewrite IH.
    + by rewrite IH.
Qed.

(** X24. The first replacement of [Done] does not show in the result:
    collapsing the runs of line feeds and carriage returns before collapsing
    the runs of white space gives the same bytes as collapsing the runs of
    white space alone, so the final text is that of the second replacement
    and the trimming. *)
Theorem lineFeed_pass_is_unobservable (text : bytes) :
  ReplaceAll is_whitespace (ReplaceAll is_lineFeed text [byte_of 10]) [byte_of 32]
  = ReplaceAll is_whitespace text [byte_of 32]
  ∧ normalize text
    = TrimSpace (string_of_bytes (ReplaceAll is_whitespace text [byte_of 32])).
Proof.
  assert (ReplaceAll is_whitespace (ReplaceAll is_lineFeed text [byte_of 10]) [byte_of 32]
          = ReplaceAll is_whitespace text [byte_of 32]) as Heq
    by by apply ReplaceAll_whitespace_after_lineFeed.
  split; [done|]. unfold normalize. by rewrite Heq.
Qed.

(** X25. [TrimSpace] is idempotent: a trimmed string has no white space rune
    left at either end. *)
Theorem TrimSpace_idempotent (s : string) :
  TrimSpace (TrimSpace s) = TrimSpace s.
Proof.
  unfold TrimSpace. by rewrite list_ascii_of_string_of_list_ascii, TrimSpace_fixed.
Qed.
